(** * GTE/Mathematics/Matrix.h: fixed-dimension dense matrices

    A shallow embedding of [gte::Matrix<NumRows, NumCols, Real>] and of the
    free functions of Matrix.h, followed by the properties of the
    specification that are settled on it.

    Conventions of the embedding:
    - [Real] is the template's element type, kept abstract: a type with the
      operations Matrix.h applies to it ([RealOps]).  Exact integers [Z] are
      one instance, used to evaluate the code on concrete inputs.
    - the storage [mStorage] (a [std::array] of [std::array]s, one
      contiguous block of [NumRows * NumCols] elements) is a [list Real];
      [mStorage[a][b]] is element [a * inner + b] of the block, where
      [inner] is the length of the inner arrays, and [(&mStorage[0][0])[i]]
      is element [i].
    - the build-time switch GTE_USE_ROW_MAJOR / GTE_USE_COL_MAJOR is a
      [Layout] value; column-major is what the [#else] branches select.
    - [for] loops over an index are [for_range]; a loop that is left by
      [break] is a recursive function on the remaining iteration count.
    - reads and writes outside the block are undefined in C++; here a read
      returns [(Real)0] and a write does nothing. *)

From Stdlib Require Import ZArith Lia.
From stdpp Require Import base list.

(** ** The element type *)

Class RealOps (Real : Type) := {
  r0 : Real;                       (* (Real)0 *)
  r1 : Real;                       (* (Real)1 *)
  radd : Real → Real → Real;       (* x + y, x += y *)
  rmul : Real → Real → Real;       (* x * y, x *= y *)
  rdiv : Real → Real → Real;       (* x / y *)
  rabs : Real → Real;              (* std::fabs(x) *)
  rgt : Real → Real → bool;        (* x > y *)
  rne : Real → Real → bool;        (* x != y *)
}.

(** Exact integers as an element type. *)
#[export] Instance Z_RealOps : RealOps Z := {|
  r0 := 0%Z;
  r1 := 1%Z;
  radd := Z.add;
  rmul := Z.mul;
  rdiv := Z.quot;
  rabs := Z.abs;
  rgt := Z.gtb;
  rne := λ x y, negb (Z.eqb x y);
|}.

(** ** Storage layout *)

Inductive Layout := RowMajor | ColMajor.

(** ** Loops *)

(** [for (j = i; j < i + n; ++j) s = body j s]. *)
Fixpoint for_range {St : Type} (i n : nat) (body : nat → St → St) (s : St) : St :=
  match n with
  | O => s
  | S n' => for_range (S i) n' body (body i s)
  end.

(** [for ( ; j < hi; ++j) s = body j s], entered with [j = i]. *)
Definition for_upto {St : Type} (i hi : nat) (body : nat → St → St) (s : St) : St :=
  for_range i (hi - i) body s.

Section Matrix.
Context {Real : Type} `{RealOps Real}.
Variable layout : Layout.

(** *** class Matrix::Table *)

Record Table (NumRows NumCols : nat) := mkTable { mStorage : list Real }.
Global Arguments mkTable {_ _} _.
Global Arguments mStorage {_ _} _.

Section Table.
Context {NumRows NumCols : nat}.

(** Length of the inner arrays of [mStorage]:
    [std::array<std::array<Real, NumCols>, NumRows>] when row-major,
    [std::array<std::array<Real, NumRows>, NumCols>] otherwise. *)
Definition inner_dim : nat :=
  match layout with
  | RowMajor => NumCols
  | ColMajor => NumRows
  end.

(** [mStorage[a][b]] *)
Definition storage_get (T : Table NumRows NumCols) (a b : nat) : Real :=
  default r0 (mStorage T !! (a * inner_dim + b)).

(** [mStorage[a][b] = v] *)
Definition storage_set (T : Table NumRows NumCols) (a b : nat) (v : Real)
  : Table NumRows NumCols :=
  mkTable (<[a * inner_dim + b := v]> (mStorage T)).

(** [Table()]: [mStorage{}] value-initialises the block, then every
    element is assigned zero in storage order. *)
Definition Table_ctor : Table NumRows NumCols :=
  let T := mkTable (replicate (NumRows * NumCols) r0) in
  match layout with
  | RowMajor =>
      for_range 0 NumRows (λ r T,
        for_range 0 NumCols (λ c T, storage_set T r c r0) T) T
  | ColMajor =>
      for_range 0 NumCols (λ c T,
        for_range 0 NumRows (λ r T, storage_set T c r r0) T) T
  end.

(** [Table::operator()(r, c)], read form. *)
Definition Table_at (T : Table NumRows NumCols) (r c : nat) : Real :=
  match layout with
  | RowMajor => storage_get T r c
  | ColMajor => storage_get T c r
  end.

(** [Table::operator()(r, c) = v], write form. *)
Definition Table_set (T : Table NumRows NumCols) (r c : nat) (v : Real)
  : Table NumRows NumCols :=
  match layout with
  | RowMajor => storage_set T r c v
  | ColMajor => storage_set T c r v
  end.

(** [Table::operator[](i)]: [(&mStorage[0][0])[i]], read form. *)
Definition Table_idx (T : Table NumRows NumCols) (i : nat) : Real :=
  default r0 (mStorage T !! i).

(** [Table::operator[](i) = v], write form. *)
Definition Table_set_idx (T : Table NumRows NumCols) (i : nat) (v : Real)
  : Table NumRows NumCols :=
  mkTable (<[i := v]> (mStorage T)).
End Table.

(** *** class Matrix *)

Record Matrix (NumRows NumCols : nat) := mkMatrix { mTable : Table NumRows NumCols }.
Global Arguments mkMatrix {_ _} _.
Global Arguments mTable {_ _} _.

Section Members.
Context {NumRows NumCols : nat}.

(** [operator()(r, c)], read and write forms. *)
Definition Mat_at (M : Matrix NumRows NumCols) (r c : nat) : Real := Table_at (mTable M) r c.
Definition Mat_set (M : Matrix NumRows NumCols) (r c : nat) (v : Real) : Matrix NumRows NumCols :=
  mkMatrix (Table_set (mTable M) r c v).

(** [operator[](i)], read and write forms. *)
Definition Mat_idx (M : Matrix NumRows NumCols) (i : nat) : Real := Table_idx (mTable M) i.
Definition Mat_set_idx (M : Matrix NumRows NumCols) (i : nat) (v : Real) : Matrix NumRows NumCols :=
  mkMatrix (Table_set_idx (mTable M) i v).

(** [void MakeZero()] *)
Definition MakeZero (M : Matrix NumRows NumCols) : Matrix NumRows NumCols :=
  for_range 0 (NumRows * NumCols) (λ i M, Mat_set_idx M i r0) M.

(** [void MakeUnit(int32_t r, int32_t c)] *)
Definition MakeUnit (r c : Z) (M : Matrix NumRows NumCols) : Matrix NumRows NumCols :=
  let M := MakeZero M in
  if ((0 <=? r) && (r <? Z.of_nat NumRows) && (0 <=? c) && (c <? Z.of_nat NumCols))%Z
  then Mat_set M (Z.to_nat r) (Z.to_nat c) r1
  else M.

(** [void MakeIdentity()] *)
Definition MakeIdentity (M : Matrix NumRows NumCols) : Matrix NumRows NumCols :=
  let M := MakeZero M in
  let numDiagonal := if NumRows <=? NumCols then NumRows else NumCols in
  for_range 0 numDiagonal (λ i M, Mat_set M i i r1) M.

(** [Matrix()]: the member [mTable] is constructed, then [MakeZero()]. *)
Definition Matrix_ctor : Matrix NumRows NumCols := MakeZero (mkMatrix Table_ctor).

(** [Matrix(std::array<Real, NumRows * NumCols> const& values)] *)
Definition Matrix_array (values : list Real) : Matrix NumRows NumCols :=
  snd (for_range 0 NumRows (λ r '(i, M),
         for_range 0 NumCols (λ c '(i, M),
           (S i, Mat_set M r c (default r0 (values !! i)))) (i, M))
         (0, mkMatrix Table_ctor)).

(** [Matrix(std::initializer_list<Real> values)].

    The inner loop [for (c = 0; c < NumCols; ++c, ++i)] with its [break]:
    [n] counts the iterations left before [c] reaches [NumCols]; the
    result is the state [(c, i, iter, M)] in which the loop is left.
    [iter] is the offset of the iterator from [values.begin()], and
    [numValues] is the length of the list. *)
Fixpoint init_copy_row (values : list Real) (r n c i iter : nat) (M : Matrix NumRows NumCols)
  : nat * nat * nat * Matrix NumRows NumCols :=
  match n with
  | O => (c, i, iter, M)
  | S n' =>
      if i <? length values
      then init_copy_row values r n' (S c) (S i) (S iter)
             (Mat_set M r c (default r0 (values !! iter)))
      else (c, i, iter, M)
  end.

(** The outer loop [for (r = 0, i = 0; r < NumRows; ++r)] with its [break]
    ([n] counts the rows left); the result is [(r, M)] on leaving it. *)
Fixpoint init_rows (values : list Real) (n r i iter : nat) (M : Matrix NumRows NumCols)
  : nat * Matrix NumRows NumCols :=
  match n with
  | O => (r, M)
  | S n' =>
      let '(c, i, iter, M) := init_copy_row values r NumCols 0 i iter M in
      if c <? NumCols
      then (S r, for_upto c NumCols (λ c M, Mat_set M r c r0) M)
      else init_rows values n' (S r) i iter M
  end.

Definition Matrix_init (values : list Real) : Matrix NumRows NumCols :=
  let '(r, M) := init_rows values NumRows 0 0 0 (mkMatrix Table_ctor) in
  if r <? NumRows
  then for_upto r NumRows (λ r M,
         for_range 0 NumCols (λ c M, Mat_set M r c r0) M) M
  else M.

(** [Matrix(int32_t r, int32_t c)] *)
Definition Matrix_rc (r c : Z) : Matrix NumRows NumCols := MakeUnit r c (mkMatrix Table_ctor).

(** [static Matrix Zero()] *)
Definition Zero : Matrix NumRows NumCols := MakeZero Matrix_ctor.

(** [static Matrix Unit(int32_t r, int32_t c)] *)
Definition Unit (r c : Z) : Matrix NumRows NumCols := MakeUnit r c Matrix_ctor.

(** [static Matrix Identity()] *)
Definition Identity : Matrix NumRows NumCols := MakeIdentity Matrix_ctor.

(** [operator/=(Matrix& M, Real scalar)] *)
Definition op_div_assign (M : Matrix NumRows NumCols) (scalar : Real) : Matrix NumRows NumCols :=
  if rne scalar r0
  then
    let invScalar := rdiv r1 scalar in
    for_range 0 (NumRows * NumCols)
      (λ i M, Mat_set_idx M i (rmul (Mat_idx M i) invScalar)) M
  else
    for_range 0 (NumRows * NumCols) (λ i M, Mat_set_idx M i r0) M.

(** [operator/(Matrix const& M, Real scalar)] *)
Definition op_div (M : Matrix NumRows NumCols) (scalar : Real) : Matrix NumRows NumCols :=
  let result := M in
  op_div_assign result scalar.

(** [Real L1Norm(Matrix const& M)] *)
Definition L1Norm (M : Matrix NumRows NumCols) : Real :=
  for_upto 1 (NumRows * NumCols)
    (λ i sum, radd sum (rabs (Mat_idx M i))) (rabs (Mat_idx M 0)).

(** [Real LInfinityNorm(Matrix const& M)] *)
Definition LInfinityNorm (M : Matrix NumRows NumCols) : Real :=
  for_upto 1 (NumRows * NumCols)
    (λ i maxAbsElement,
       let absElement := rabs (Mat_idx M i) in
       if rgt absElement maxAbsElement then absElement else maxAbsElement)
    (Mat_idx M 0).

(** [&M[0]]: the block of [NumRows * NumCols] elements that starts at the
    first element of the storage. *)
Definition Mat_data (M : Matrix NumRows NumCols) : list Real := mStorage (mTable M).
End Members.

(** [Transpose(Matrix<NumRows, NumCols, Real> const& M)] *)
Definition Transpose {NumRows NumCols : nat} (M : Matrix NumRows NumCols)
  : Matrix NumCols NumRows :=
  for_range 0 NumRows (λ r result,
    for_range 0 NumCols (λ c result,
      Mat_set result c r (Mat_at M r c)) result) Matrix_ctor.

(** *** The elimination collaborator (GaussianElimination.h)

    [GaussianElimination<Real>()(N, M, inverseM, determinant, ...)] reads
    the buffer [M], writes the buffer [inverseM] unless it is null, writes
    [determinant] and returns whether the matrix is invertible.  Matrix.h
    passes null and zero for the remaining arguments.  The functor is a
    parameter of the embedding: its arguments are [N], the contents of [M]
    and the contents of [inverseM] ([None] for [nullptr]). *)
Record GEResult := mkGEResult {
  ge_invertible : bool;
  ge_inverseM : option (list Real);
  ge_determinant : Real;
}.

Section Solver.
Variable GaussianElimination : nat → list Real → option (list Real) → GEResult.
Context {N : nat}.

(** [Inverse(Matrix<N, N, Real> const& M, bool* reportInvertibility)]:
    the returned pair is [invM] and the value stored through
    [reportInvertibility] when that pointer is not null. *)
Definition Inverse (M : Matrix N N) : Matrix N N * bool :=
  let invM : Matrix N N := Matrix_ctor in
  let res := GaussianElimination N (Mat_data M) (Some (Mat_data invM)) in
  let invM := mkMatrix (mkTable (default (Mat_data invM) (ge_inverseM res))) in
  (invM, ge_invertible res).

(** [Determinant(Matrix<N, N, Real> const& M)] *)
Definition Determinant (M : Matrix N N) : Real :=
  ge_determinant (GaussianElimination N (Mat_data M) None).
End Solver.

(** *** Products *)

Section Products.
Context {NumRows NumCols NumCommon : nat}.

(** [MultiplyAB(A, B)], also [operator*(A, B)]. *)
Definition MultiplyAB (A : Matrix NumRows NumCommon) (B : Matrix NumCommon NumCols)
  : Matrix NumRows NumCols :=
  for_range 0 NumRows (λ r result,
    for_range 0 NumCols (λ c result,
      let result := Mat_set result r c r0 in
      for_range 0 NumCommon (λ i result,
        Mat_set result r c
          (radd (Mat_at result r c) (rmul (Mat_at A r i) (Mat_at B i c))))
        result) result) Matrix_ctor.

(** [MultiplyABT(A, B)] *)
Definition MultiplyABT (A : Matrix NumRows NumCommon) (B : Matrix NumCols NumCommon)
  : Matrix NumRows NumCols :=
  for_range 0 NumRows (λ r result,
    for_range 0 NumCols (λ c result,
      let result := Mat_set result r c r0 in
      for_range 0 NumCommon (λ i result,
        Mat_set result r c
          (radd (Mat_at result r c) (rmul (Mat_at A r i) (Mat_at B c i))))
        result) result) Matrix_ctor.

(** [MultiplyATB(A, B)] *)
Definition MultiplyATB (A : Matrix NumCommon NumRows) (B : Matrix NumCommon NumCols)
  : Matrix NumRows NumCols :=
  for_range 0 NumRows (λ r result,
    for_range 0 NumCols (λ c result,
      let result := Mat_set result r c r0 in
      for_range 0 NumCommon (λ i result,
        Mat_set result r c
          (radd (Mat_at result r c) (rmul (Mat_at A i r) (Mat_at B i c))))
        result) result) Matrix_ctor.
End Products.

(** *** Homogeneous lift and projection *)

(** [HLift(Matrix<N, N, Real> const& M)] *)
Definition HLift {N : nat} (M : Matrix N N) : Matrix (N + 1) (N + 1) :=
  let result := MakeIdentity Matrix_ctor in
  for_range 0 N (λ r result,
    for_range 0 N (λ c result,
      Mat_set result r c (Mat_at M r c)) result) result.

(** [HProject(Matrix<N, N, Real> const& M)], with the template's [N]
    written [N + 1]: the [static_assert(N >= 2)] of the source is
    [1 <= N] here, and the result is [N]-by-[N]. *)
Definition HProject {N : nat} (M : Matrix (N + 1) (N + 1)) : Matrix N N :=
  for_range 0 (N + 1 - 1) (λ r result,
    for_range 0 (N + 1 - 1) (λ c result,
      Mat_set result r c (Mat_at M r c)) result) Matrix_ctor.
End Matrix.

Arguments Table {Real}.
Arguments Matrix {Real}.
Arguments GEResult : clear implicits.

(** *** Reading a matrix back as its list of rows *)

Definition rows_of {Real : Type} `{RealOps Real} (layout : Layout) {NumRows NumCols : nat}
  (M : Matrix (Real:=Real) NumRows NumCols) : list (list Real) :=
  map (λ r, map (λ c, Mat_at layout M r c) (seq 0 NumCols)) (seq 0 NumRows).

(** ** The rest of Matrix.h *)

(** The operations of the element type that the remaining functions use. *)
Class RealOpsExt (Real : Type) := {
  rneg : Real → Real;              (* -x *)
  rsub : Real → Real → Real;       (* x - y, x -= y *)
  rlt : Real → Real → bool;        (* x < y *)
  req : Real → Real → bool;        (* x == y *)
}.

#[export] Instance Z_RealOpsExt : RealOpsExt Z := {|
  rneg := Z.opp;
  rsub := Z.sub;
  rlt := Z.ltb;
  req := Z.eqb;
|}.

(** *** std::array comparisons

    [operator==] of [std::array] is [std::equal] over the elements, and
    [operator<] is [std::lexicographical_compare]; the arrays compared have
    the same static length.  [!=], [>], [<=] and [>=] are defined from
    these two: [!(a == b)], [b < a], [!(b < a)] and [!(a < b)]. *)

Fixpoint array_equal {A : Type} (eq : A → A → bool) (a b : list A) : bool :=
  match a, b with
  | [], _ => true
  | x :: a', y :: b' => if eq x y then array_equal eq a' b' else false
  | _ :: _, [] => false
  end.

Fixpoint lexicographical_compare {A : Type} (lt : A → A → bool) (a b : list A) : bool :=
  match a, b with
  | _, [] => false
  | [], _ :: _ => true
  | x :: a', y :: b' =>
      if lt x y then true
      else if lt y x then false
      else lexicographical_compare lt a' b'
  end.

(** The [n] inner arrays, each of length [inner], of a block. *)
Fixpoint inner_arrays {A : Type} (n inner : nat) (block : list A) : list (list A) :=
  match n with
  | O => []
  | S n' => take inner block :: inner_arrays n' inner (drop inner block)
  end.

Section MatrixRest.
Context {Real : Type} `{RealOps Real} `{!RealOpsExt Real}.
Variable layout : Layout.

(** *** Vector<N, Real> *)

(** Modelled from the spec: Vector.h is not among the sources.  A
    [Vector<N, Real>] is a fixed-length sequence of [N] elements with
    positional read and write through [operator[]] and a default
    construction that fills it with zero. *)
Record Vector (N : nat) := mkVector { mTuple : list Real }.
Global Arguments mkVector {_} _.
Global Arguments mTuple {_} _.

Definition Vector_ctor {N : nat} : Vector N := mkVector (replicate N r0).

Definition Vec_at {N : nat} (V : Vector N) (i : nat) : Real :=
  default r0 (mTuple V !! i).

Definition Vec_set {N : nat} (V : Vector N) (i : nat) (x : Real) : Vector N :=
  mkVector (<[i := x]> (mTuple V)).

Section MembersRest.
Context {NumRows NumCols : nat}.

(** The outer [std::array] of [mStorage], as the list of its inner arrays. *)
Definition storage_arrays (M : Matrix (Real:=Real) NumRows NumCols) : list (list Real) :=
  match layout with
  | RowMajor => inner_arrays NumRows NumCols (mStorage (mTable M))
  | ColMajor => inner_arrays NumCols NumRows (mStorage (mTable M))
  end.

(** [void SetRow(int32_t r, Vector<NumCols, Real> const& vec)] *)
Definition SetRow (r : nat) (vec : Vector NumCols) (M : Matrix NumRows NumCols)
  : Matrix NumRows NumCols :=
  for_range 0 NumCols (λ c M, Mat_set layout M r c (Vec_at vec c)) M.

(** [void SetCol(int32_t c, Vector<NumRows, Real> const& vec)] *)
Definition SetCol (c : nat) (vec : Vector NumRows) (M : Matrix NumRows NumCols)
  : Matrix NumRows NumCols :=
  for_range 0 NumRows (λ r M, Mat_set layout M r c (Vec_at vec r)) M.

(** [Vector<NumCols, Real> GetRow(int32_t r) const] *)
Definition GetRow (r : nat) (M : Matrix NumRows NumCols) : Vector NumCols :=
  for_range 0 NumCols (λ c vec, Vec_set vec c (Mat_at layout M r c)) Vector_ctor.

(** [Vector<NumRows, Real> GetCol(int32_t c) const] *)
Definition GetCol (c : nat) (M : Matrix NumRows NumCols) : Vector NumRows :=
  for_range 0 NumRows (λ r vec, Vec_set vec r (Mat_at layout M r c)) Vector_ctor.

(** [operator==], [operator!=], [operator<], [operator<=], [operator>],
    [operator>=]: the comparisons of [mTable.mStorage]. *)
Definition op_eq (M mat : Matrix NumRows NumCols) : bool :=
  array_equal (array_equal req) (storage_arrays M) (storage_arrays mat).

Definition op_ne (M mat : Matrix NumRows NumCols) : bool :=
  negb (array_equal (array_equal req) (storage_arrays M) (storage_arrays mat)).

Definition op_lt (M mat : Matrix NumRows NumCols) : bool :=
  lexicographical_compare (lexicographical_compare rlt)
    (storage_arrays M) (storage_arrays mat).

Definition op_le (M mat : Matrix NumRows NumCols) : bool :=
  negb (lexicographical_compare (lexicographical_compare rlt)
          (storage_arrays mat) (storage_arrays M)).

Definition op_gt (M mat : Matrix NumRows NumCols) : bool :=
  lexicographical_compare (lexicographical_compare rlt)
    (storage_arrays mat) (storage_arrays M).

Definition op_ge (M mat : Matrix NumRows NumCols) : bool :=
  negb (lexicographical_compare (lexicographical_compare rlt)
          (storage_arrays M) (storage_arrays mat)).

(** Unary [operator+(M)] *)
Definition op_pos (M : Matrix (Real:=Real) NumRows NumCols) : Matrix NumRows NumCols := M.

(** Unary [operator-(M)] *)
Definition op_neg (M : Matrix NumRows NumCols) : Matrix NumRows NumCols :=
  for_range 0 (NumRows * NumCols)
    (λ i result, Mat_set_idx result i (rneg (Mat_idx M i))) (Matrix_ctor layout).

(** [operator+=(M0, M1)] *)
Definition op_add_assign (M0 M1 : Matrix NumRows NumCols) : Matrix NumRows NumCols :=
  for_range 0 (NumRows * NumCols)
    (λ i M0, Mat_set_idx M0 i (radd (Mat_idx M0 i) (Mat_idx M1 i))) M0.

(** [operator-=(M0, M1)] *)
Definition op_sub_assign (M0 M1 : Matrix NumRows NumCols) : Matrix NumRows NumCols :=
  for_range 0 (NumRows * NumCols)
    (λ i M0, Mat_set_idx M0 i (rsub (Mat_idx M0 i) (Mat_idx M1 i))) M0.

(** [operator*=(M, scalar)] *)
Definition op_mul_assign (M : Matrix NumRows NumCols) (scalar : Real)
  : Matrix NumRows NumCols :=
  for_range 0 (NumRows * NumCols)
    (λ i M, Mat_set_idx M i (rmul (Mat_idx M i) scalar)) M.

(** [operator+(M0, M1)] *)
Definition op_add (M0 M1 : Matrix NumRows NumCols) : Matrix NumRows NumCols :=
  let result := M0 in
  op_add_assign result M1.

(** [operator-(M0, M1)] *)
Definition op_sub (M0 M1 : Matrix NumRows NumCols) : Matrix NumRows NumCols :=
  let result := M0 in
  op_sub_assign result M1.

(** [operator*(M, scalar)] *)
Definition op_mul_scalar (M : Matrix NumRows NumCols) (scalar : Real)
  : Matrix NumRows NumCols :=
  let result := M in
  op_mul_assign result scalar.

(** [operator*(scalar, M)] *)
Definition op_scalar_mul (scalar : Real) (M : Matrix NumRows NumCols)
  : Matrix NumRows NumCols :=
  let result := M in
  op_mul_assign result scalar.

(** [operator*(M, V)]: the product [M * V]. *)
Definition op_mul_MV (M : Matrix NumRows NumCols) (V : Vector NumCols) : Vector NumRows :=
  for_range 0 NumRows (λ r result,
    let result := Vec_set result r r0 in
    for_range 0 NumCols (λ c result,
      Vec_set result r (radd (Vec_at result r) (rmul (Mat_at layout M r c) (Vec_at V c))))
      result) Vector_ctor.

(** [operator*(V, M)]: the product [V^T * M]. *)
Definition op_mul_VM (V : Vector NumRows) (M : Matrix NumRows NumCols) : Vector NumCols :=
  for_range 0 NumCols (λ c result,
    let result := Vec_set result c r0 in
    for_range 0 NumRows (λ r result,
      Vec_set result c (radd (Vec_at result c) (rmul (Vec_at V r) (Mat_at layout M r c))))
      result) Vector_ctor.

(** [MultiplyMD(M, D)] *)
Definition MultiplyMD (M : Matrix NumRows NumCols) (D : Vector NumCols)
  : Matrix NumRows NumCols :=
  for_range 0 NumRows (λ r result,
    for_range 0 NumCols (λ c result,
      Mat_set layout result r c (rmul (Mat_at layout M r c) (Vec_at D c))) result)
    (Matrix_ctor layout).

(** [MultiplyDM(D, M)] *)
Definition MultiplyDM (D : Vector NumRows) (M : Matrix NumRows NumCols)
  : Matrix NumRows NumCols :=
  for_range 0 NumRows (λ r result,
    for_range 0 NumCols (λ c result,
      Mat_set layout result r c (rmul (Vec_at D r) (Mat_at layout M r c))) result)
    (Matrix_ctor layout).

(** [OuterProduct(U, V)] *)
Definition OuterProduct (U : Vector NumRows) (V : Vector NumCols)
  : Matrix NumRows NumCols :=
  for_range 0 NumRows (λ r result,
    for_range 0 NumCols (λ c result,
      Mat_set layout result r c (rmul (Vec_at U r) (Vec_at V c))) result)
    (Matrix_ctor layout).
End MembersRest.

(** [MultiplyATBT(A, B)] *)
Definition MultiplyATBT {NumRows NumCols NumCommon : nat}
    (A : Matrix (Real:=Real) NumCommon NumRows) (B : Matrix (Real:=Real) NumCols NumCommon)
  : Matrix NumRows NumCols :=
  for_range 0 NumRows (λ r result,
    for_range 0 NumCols (λ c result,
      let result := Mat_set layout result r c r0 in
      for_range 0 NumCommon (λ i result,
        Mat_set layout result r c
          (radd (Mat_at layout result r c)
                (rmul (Mat_at layout A i r) (Mat_at layout B c i))))
        result) result) (Matrix_ctor layout).

(** [MakeDiagonal(D, M)] *)
Definition MakeDiagonal {N : nat} (D : Vector N) (M : Matrix (Real:=Real) N N)
  : Matrix N N :=
  let M := for_range 0 (N * N) (λ i M, Mat_set_idx M i r0) M in
  for_range 0 N (λ i M, Mat_set layout M i i (Vec_at D i)) M.
End MatrixRest.

Arguments Vector {Real}.

(** A vector of the right length. *)
Definition wfV {Real : Type} {N : nat} (V : Vector (Real:=Real) N) : Prop :=
  length (mTuple V) = N.

(** The coordinates of the element at linear index [i]. *)
Definition row_of (layout : Layout) (NumRows NumCols i : nat) : nat :=
  match layout with
  | RowMajor => i / NumCols
  | ColMajor => i mod NumRows
  end.

Definition col_of (layout : Layout) (NumRows NumCols i : nat) : nat :=
  match layout with
  | RowMajor => i mod NumCols
  | ColMajor => i / NumRows
  end.

(** Concrete vectors over the integers. *)
Definition V_3 : Vector (Real:=Z) 3 := mkVector [7; 8; 9]%Z.
Definition V_2 : Vector (Real:=Z) 2 := mkVector [7; 8]%Z.

(** ** Well-formed values

    In C++ the type of [mStorage] fixes the size of the block.  Here it is
    the invariant [wf], established by every constructor and kept by every
    operation. *)

Definition wf {Real : Type} {NumRows NumCols : nat}
  (M : Matrix (Real:=Real) NumRows NumCols) : Prop :=
  length (mStorage (mTable M)) = NumRows * NumCols.

(** The position of element [(r, c)] in the block. *)
Definition slot (layout : Layout) (NumRows NumCols r c : nat) : nat :=
  match layout with
  | RowMajor => r * NumCols + c
  | ColMajor => c * NumRows + r
  end.

(** [good layout g M D]: [M] is well formed and holds [g r c] at every
    valid [(r, c)] of the region [D]. *)
Definition good {Real : Type} `{RealOps Real} (layout : Layout) {NumRows NumCols : nat}
  (g : nat → nat → Real) (M : Matrix (Real:=Real) NumRows NumCols)
  (D : nat → nat → Prop) : Prop :=
  wf M ∧ ∀ r c, r < NumRows → c < NumCols → D r c → Mat_at layout M r c = g r c.

(** A client that assigns through the accessor: the statements
    [M(r, c) = v], one per entry of [ws], in order. *)
Definition assign_all {Real : Type} `{RealOps Real} (layout : Layout) {NumRows NumCols : nat}
  (ws : list (nat * nat * Real)) (M : Matrix (Real:=Real) NumRows NumCols)
  : Matrix NumRows NumCols :=
  foldl (λ M w, Mat_set layout M w.1.1 w.1.2 w.2) M ws.

(** The entries of the unit matrix [E(r, c)] and of the identity. *)
Definition unit_entry {Real : Type} `{RealOps Real} (r c : Z) (r' c' : nat) : Real :=
  if decide (r = Z.of_nat r' ∧ c = Z.of_nat c') then r1 else r0.

Definition identity_entry {Real : Type} `{RealOps Real} (r c : nat) : Real :=
  if decide (r = c) then r1 else r0.

(** The value the innermost product loop leaves in [result(r, c)]:
    [acc = 0; for (i = 0; i < n; ++i) acc += a i * b i]. *)
Definition dot {Real : Type} `{RealOps Real} (n : nat) (a b : nat → Real) : Real :=
  for_range 0 n (λ i acc, radd acc (rmul (a i) (b i))) r0.

(** The element [(r, c)] of [HLift M], as its comment describes it. *)
Definition lift_entry {Real : Type} `{RealOps Real} (layout : Layout) {N : nat}
  (M : Matrix (Real:=Real) N N) (r c : nat) : Real :=
  if (r <? N) && (c <? N) then Mat_at layout M r c
  else if (r =? N) && (c =? N) then r1
  else r0.

(** What the initializer-list constructor is to leave at [(r, c)]: value
    number [r * NumCols + c] of the list, or zero when the list is too
    short. *)
Definition init_entry {Real : Type} `{RealOps Real} (values : list Real)
  (NumCols r c : nat) : Real :=
  default r0 (values !! (r * NumCols + c)).

(** Two element types on the integers in which [1 * x = x], [0 * x = 0]
    and [x + 0 = x] hold while a mirrored identity fails.  They are plain
    records, not instances: they are named where they are used.

    In [Z_left_add] the sum is its left operand, so [0 + x] is [0]. *)
Definition Z_left_add : RealOps Z := {|
  r0 := 0%Z;
  r1 := 1%Z;
  radd := λ x _, x;
  rmul := Z.mul;
  rdiv := Z.quot;
  rabs := Z.abs;
  rgt := Z.gtb;
  rne := λ x y, negb (Z.eqb x y);
|}.

(** In [Z_skew_mul] the product [x * y] is [0] for [x = 0], [y] for
    [x = 1] and [2 x y] otherwise, so [5 * 1] is [10]. *)
Definition Z_skew_mul : RealOps Z := {|
  r0 := 0%Z;
  r1 := 1%Z;
  radd := Z.add;
  rmul := λ x y, if (x =? 0)%Z then 0%Z else if (x =? 1)%Z then y else (2 * x * y)%Z;
  rdiv := Z.quot;
  rabs := Z.abs;
  rgt := Z.gtb;
  rne := λ x y, negb (Z.eqb x y);
|}.

(** The three identities [1 * x = x], [0 * x = 0] and [x + 0 = x] of an
    element type. *)
Definition left_identities {Real : Type} (ops : RealOps Real) : Prop :=
  (∀ x : Real, rmul r1 x = x) ∧
  (∀ x : Real, rmul r0 x = r0) ∧
  (∀ x : Real, radd x r0 = x).

(** The 1-by-1 matrix [[5]] over each of the two, and the 1-by-1 identity. *)
Definition M_5_left_add : Matrix (Real:=Z) 1 1 :=
  Matrix_array (H:=Z_left_add) ColMajor [5%Z].

Definition I_1_left_add : Matrix (Real:=Z) 1 1 := Identity (H:=Z_left_add) ColMajor.

Definition M_5_skew_mul : Matrix (Real:=Z) 1 1 :=
  Matrix_array (H:=Z_skew_mul) ColMajor [5%Z].

Definition I_1_skew_mul : Matrix (Real:=Z) 1 1 := Identity (H:=Z_skew_mul) ColMajor.

(** Concrete matrices over the integers, used to run the code. *)
Definition M_2x2 (layout : Layout) : Matrix (Real:=Z) 2 2 :=
  Matrix_array layout [1; 2; 3; 4]%Z.

Definition M_2x3 (layout : Layout) : Matrix (Real:=Z) 2 3 :=
  Matrix_array layout [1; 2; 3; 4; 5; 6]%Z.

Definition M_1x2_neg (layout : Layout) : Matrix (Real:=Z) 1 2 :=
  Matrix_array layout [-5; 1]%Z.

(** A stand-in for the elimination collaborator on 2-by-2 integer input
    in row-major order: it returns the determinant, and writes the adjugate
    where the inverse is asked for. *)
Definition GE_2x2 (N : nat) (buf : list Z) (inv : option (list Z)) : GEResult Z :=
  match buf with
  | [a; b; c; d] =>
      let det := (a * d - b * c)%Z in
      {| ge_invertible := negb (det =? 0)%Z;
         ge_inverseM := (λ _, [d; - b; - c; a]%Z) <$> inv;
         ge_determinant := det |}
  | _ => {| ge_invertible := false; ge_inverseM := inv; ge_determinant := 0%Z |}
  end.

(** ** Loop principles *)

Section Loops.
Context {St : Type}.
Implicit Types (body : nat → St → St) (s : St).

Lemma for_range_snoc i n body s :
  for_range i (S n) body s = body (i + n) (for_range i n body s).
Proof.
  revert i s. induction n as [|n IH]; intros i s.
  - simpl. by rewrite Nat.add_0_r.
  - change (for_range i (S (S n)) body s) with (for_range (S i) (S n) body (body i s)).
    rewrite IH. simpl. by rewrite Nat.add_succ_r.
Qed.

(** Invariant rule: [P j] holds before the iteration with index [j]. *)
Lemma for_range_ind (P : nat → St → Prop) i n body s :
  P i s →
  (∀ j t, i ≤ j < i + n → P j t → P (S j) (body j t)) →
  P (i + n) (for_range i n body s).
Proof.
  revert i s. induction n as [|n IH]; intros i s Hs Hstep; simpl.
  - by rewrite Nat.add_0_r.
  - rewrite <- Nat.add_succ_comm. apply IH.
    + apply Hstep; [lia | done].
    + intros j t Hj. apply Hstep. lia.
Qed.

Lemma for_range_ext i n body body' s :
  (∀ j t, i ≤ j < i + n → body j t = body' j t) →
  for_range i n body s = for_range i n body' s.
Proof.
  revert i s. induction n as [|n IH]; intros i s Hb; simpl; [done|].
  rewrite Hb by lia. apply IH. intros j t Hj. apply Hb. lia.
Qed.

Lemma for_upto_ind (P : nat → St → Prop) i hi body s :
  i ≤ hi →
  P i s →
  (∀ j t, i ≤ j < hi → P j t → P (S j) (body j t)) →
  P hi (for_upto i hi body s).
Proof.
  intros Hle Hs Hstep. unfold for_upto.
  replace hi with (i + (hi - i)) at 1 by lia.
  apply for_range_ind; [done|]. intros j t Hj. apply Hstep. lia.
Qed.
End Loops.

(** Two loops over the same range that keep their states related. *)
Lemma for_range_rel {St St' : Type} (Rel : nat → St → St' → Prop) i n
    (body : nat → St → St) (body' : nat → St' → St') s s' :
  Rel i s s' →
  (∀ j t t', i ≤ j < i + n → Rel j t t' → Rel (S j) (body j t) (body' j t')) →
  Rel (i + n) (for_range i n body s) (for_range i n body' s').
Proof.
  revert i s s'. induction n as [|n IH]; intros i s s' Hs Hstep; simpl.
  - by rewrite Nat.add_0_r.
  - rewrite <- Nat.add_succ_comm. apply IH.
    + apply Hstep; [lia | done].
    + intros j t t' Hj. apply Hstep. lia.
Qed.

(** ** The storage table *)

Section TableFacts.
Context {Real : Type} `{RealOps Real}.
Variable layout : Layout.
Context {NumRows NumCols : nat}.
Implicit Types (M : Matrix (Real:=Real) NumRows NumCols) (r c i : nat) (v : Real).

Lemma Matrix_eq M M' : mStorage (mTable M) = mStorage (mTable M') → M = M'.
Proof. destruct M as [[l]], M' as [[l']]. simpl. by intros ->. Qed.

Lemma Mat_at_slot M r c :
  Mat_at layout M r c = default r0 (mStorage (mTable M) !! slot layout NumRows NumCols r c).
Proof. unfold Mat_at, Table_at, storage_get, inner_dim, slot. by destruct layout. Qed.

Lemma Mat_set_slot M r c v :
  Mat_set layout M r c v = mkMatrix (mkTable (<[slot layout NumRows NumCols r c := v]> (mStorage (mTable M)))).
Proof. unfold Mat_set, Table_set, storage_set, inner_dim, slot. by destruct layout. Qed.

Lemma slot_lt r c : r < NumRows → c < NumCols → slot layout NumRows NumCols r c < NumRows * NumCols.
Proof. unfold slot. destruct layout; nia. Qed.

Lemma slot_inj r c r' c' :
  r < NumRows → c < NumCols → r' < NumRows → c' < NumCols →
  slot layout NumRows NumCols r c = slot layout NumRows NumCols r' c' → r = r' ∧ c = c'.
Proof.
  unfold slot. intros Hr Hc Hr' Hc'. destruct layout; intros Heq.
  - destruct (Nat.lt_trichotomy r r') as [?|[->|?]]; [nia|lia|nia].
  - destruct (Nat.lt_trichotomy c c') as [?|[->|?]]; [nia|lia|nia].
Qed.

Lemma slot_surj i :
  i < NumRows * NumCols → ∃ r c, r < NumRows ∧ c < NumCols ∧ slot layout NumRows NumCols r c = i.
Proof.
  intros Hi. unfold slot. destruct layout.
  - assert (NumCols ≠ 0) by nia.
    exists (i / NumCols), (i mod NumCols). split; [|split].
    + apply Nat.Div0.div_lt_upper_bound. lia.
    + by apply Nat.mod_upper_bound.
    + pose proof (Nat.div_mod_eq i NumCols). lia.
  - assert (NumRows ≠ 0) by nia.
    exists (i mod NumRows), (i / NumRows). split; [|split].
    + by apply Nat.mod_upper_bound.
    + apply Nat.Div0.div_lt_upper_bound. lia.
    + pose proof (Nat.div_mod_eq i NumRows). lia.
Qed.

Lemma wf_set M r c v : wf M → wf (Mat_set layout M r c v).
Proof. unfold wf. rewrite Mat_set_slot. simpl. by rewrite length_insert. Qed.

Lemma Mat_at_set_eq M r c v :
  wf M → r < NumRows → c < NumCols → Mat_at layout (Mat_set layout M r c v) r c = v.
Proof.
  intros Hwf Hr Hc. rewrite Mat_at_slot, Mat_set_slot. simpl.
  rewrite list_lookup_insert_eq; [done|]. rewrite Hwf. by apply slot_lt.
Qed.

Lemma Mat_at_set_ne M r c v r' c' :
  r < NumRows → c < NumCols → r' < NumRows → c' < NumCols →
  ¬ (r' = r ∧ c' = c) →
  Mat_at layout (Mat_set layout M r c v) r' c' = Mat_at layout M r' c'.
Proof.
  intros Hr Hc Hr' Hc' Hne. rewrite !Mat_at_slot, Mat_set_slot. simpl.
  rewrite list_lookup_insert_ne; [done|].
  intros Heq. destruct (slot_inj _ _ _ _ Hr Hc Hr' Hc' Heq) as [-> ->]. tauto.
Qed.

(** Two well-formed matrices that agree at every valid [(r, c)] have the
    same storage: they are equal for [operator==]. *)
Lemma Matrix_eq_at M M' :
  wf M → wf M' →
  (∀ r c, r < NumRows → c < NumCols → Mat_at layout M r c = Mat_at layout M' r c) →
  M = M'.
Proof.
  intros Hwf Hwf' Hat. apply Matrix_eq.
  apply list_eq_same_length with (NumRows * NumCols); [done..|].
  intros i x y Hi Hx Hy.
  destruct (slot_surj i Hi) as (r & c & Hr & Hc & <-).
  specialize (Hat r c Hr Hc). rewrite !Mat_at_slot, Hx, Hy in Hat. done.
Qed.

(** *** Regions that hold the values of [g] *)

Lemma good_set g M (D : nat → nat → Prop) r c v :
  good layout g M D → r < NumRows → c < NumCols → v = g r c →
  good layout g (Mat_set layout M r c v) (λ r' c', D r' c' ∨ (r' = r ∧ c' = c)).
Proof.
  intros [Hwf HD] Hr Hc ->. split; [by apply wf_set|].
  intros r' c' Hr' Hc' HD'.
  destruct (decide (r' = r ∧ c' = c)) as [[-> ->]|Hne].
  - by apply Mat_at_set_eq.
  - rewrite Mat_at_set_ne by done. apply HD; [done..|]. tauto.
Qed.

Lemma good_weaken g M (D D' : nat → nat → Prop) :
  good layout g M D →
  (∀ r c, r < NumRows → c < NumCols → D' r c → D r c) →
  good layout g M D'.
Proof. intros [Hwf HD] Hsub. split; [done|]. intros r c Hr Hc HD'. apply HD; auto. Qed.

Lemma good_eq g M M' :
  good layout g M (λ _ _, True) → good layout g M' (λ _ _, True) → M = M'.
Proof.
  intros [Hwf HD] [Hwf' HD']. apply Matrix_eq_at; [done..|].
  intros r c Hr Hc. by rewrite HD, HD'.
Qed.

(** [for (c = lo; c < lo + n; ++c) M(r, c) = v c] *)
Lemma good_row_loop g M (D : nat → nat → Prop) r lo n (v : nat → Real) :
  good layout g M D → r < NumRows → lo + n ≤ NumCols →
  (∀ c, lo ≤ c < lo + n → v c = g r c) →
  good layout g (for_range lo n (λ c M, Mat_set layout M r c (v c)) M)
    (λ r' c', D r' c' ∨ (r' = r ∧ lo ≤ c' < lo + n)).
Proof.
  intros HM Hr Hn Hv.
  apply (for_range_ind
    (λ j M, good layout g M (λ r' c', D r' c' ∨ (r' = r ∧ lo ≤ c' < j)))).
  - eapply good_weaken; [exact HM|]. intros r' c' _ _ [?|[_ ?]]; [done|lia].
  - intros j M' Hj HM'. eapply good_weaken.
    + apply (good_set g M' _ r j (v j) HM'); [done|lia|]. by apply Hv.
    + simpl. intros r' c' _ _ [?|[-> Hc']]; [tauto|].
      destruct (decide (c' = j)); [tauto|]. left. right. lia.
Qed.

(** [for (r = 0; r < A; ++r) for (c = 0; c < B; ++c) M(r, c) = v r c] *)
Lemma good_rect_loop g M (D : nat → nat → Prop) A B (v : nat → nat → Real) :
  good layout g M D → A ≤ NumRows → B ≤ NumCols →
  (∀ r c, r < A → c < B → v r c = g r c) →
  good layout g
    (for_range 0 A (λ r M, for_range 0 B (λ c M, Mat_set layout M r c (v r c)) M) M)
    (λ r' c', D r' c' ∨ (r' < A ∧ c' < B)).
Proof.
  intros HM HA HB Hv.
  apply (for_range_ind
    (λ j M, good layout g M (λ r' c', D r' c' ∨ (r' < j ∧ c' < B)))).
  - eapply good_weaken; [exact HM|]. intros r' c' _ _ [?|[? _]]; [done|lia].
  - intros j M' Hj HM'. eapply good_weaken.
    + apply (good_row_loop g M' _ j 0 B (v j) HM'); [lia|lia|].
      intros c Hc. apply Hv; lia.
    + simpl. intros r' c' _ _ [?|[Hr' Hc']]; [tauto|].
      destruct (decide (r' = j)) as [->|]; [right; lia|]. left. right. lia.
Qed.

(** [for (r = lo; r < lo + n; ++r) M(r, c) = v r] *)
Lemma good_col_loop g M (D : nat → nat → Prop) c lo n (v : nat → Real) :
  good layout g M D → c < NumCols → lo + n ≤ NumRows →
  (∀ r, lo ≤ r < lo + n → v r = g r c) →
  good layout g (for_range lo n (λ r M, Mat_set layout M r c (v r)) M)
    (λ r' c', D r' c' ∨ (c' = c ∧ lo ≤ r' < lo + n)).
Proof.
  intros HM Hc Hn Hv.
  apply (for_range_ind
    (λ j M, good layout g M (λ r' c', D r' c' ∨ (c' = c ∧ lo ≤ r' < j)))).
  - eapply good_weaken; [exact HM|]. intros r' c' _ _ [?|[_ ?]]; [done|lia].
  - intros j M' Hj HM'. eapply good_weaken.
    + apply (good_set g M' _ j c (v j) HM'); [lia|done|]. by apply Hv.
    + simpl. intros r' c' _ _ [?|[-> Hr']]; [tauto|].
      destruct (decide (r' = j)); [tauto|]. left. right. lia.
Qed.

(** [for (c = 0; c < A; ++c) for (r = 0; r < B; ++r) M(r, c) = v c r] *)
Lemma good_rect_loop_cols g M (D : nat → nat → Prop) A B (v : nat → nat → Real) :
  good layout g M D → A ≤ NumCols → B ≤ NumRows →
  (∀ c r, c < A → r < B → v c r = g r c) →
  good layout g
    (for_range 0 A (λ c M, for_range 0 B (λ r M, Mat_set layout M r c (v c r)) M) M)
    (λ r' c', D r' c' ∨ (r' < B ∧ c' < A)).
Proof.
  intros HM HA HB Hv.
  apply (for_range_ind
    (λ j M, good layout g M (λ r' c', D r' c' ∨ (r' < B ∧ c' < j)))).
  - eapply good_weaken; [exact HM|]. intros r' c' _ _ [?|[_ ?]]; [done|lia].
  - intros j M' Hj HM'. eapply good_weaken.
    + apply (good_col_loop g M' _ j 0 B (v j) HM'); [lia|lia|].
      intros r Hr. apply Hv; lia.
    + simpl. intros r' c' _ _ [?|[Hr' Hc']]; [tauto|].
      destruct (decide (c' = j)) as [->|]; [right; lia|]. left. right. lia.
Qed.

(** *** Linear-index loops *)

Lemma Mat_idx_data M i : Mat_idx M i = default r0 (mStorage (mTable M) !! i).
Proof. done. Qed.

(** [for (i = 0; i < n; ++i) M[i] = f(M[i])] rewrites the block by [f]. *)
Lemma idx_loop_app (f : Real → Real) (l1 l2 : list Real) :
  for_range (length l1) (length l2)
    (λ i (M : Matrix NumRows NumCols), Mat_set_idx M i (f (Mat_idx M i)))
    (mkMatrix (mkTable (l1 ++ l2)))
  = mkMatrix (mkTable (l1 ++ map f l2)).
Proof.
  revert l1. induction l2 as [|x l2 IH]; intros l1; simpl; [done|].
  unfold Mat_set_idx at 2, Table_set_idx, Mat_idx at 2, Table_idx. simpl.
  rewrite list_lookup_middle by done. simpl.
  rewrite insert_app_r_alt by lia. rewrite Nat.sub_diag. simpl.
  specialize (IH (l1 ++ [f x])). rewrite length_app, Nat.add_1_r in IH.
  rewrite <- !app_assoc in IH. exact IH.
Qed.

Lemma idx_loop (f : Real → Real) M :
  wf M →
  for_range 0 (NumRows * NumCols) (λ i M, Mat_set_idx M i (f (Mat_idx M i))) M
  = mkMatrix (mkTable (map f (mStorage (mTable M)))).
Proof.
  intros Hwf. destruct M as [[l]]. unfold wf in Hwf. simpl in *.
  rewrite <- Hwf. apply (idx_loop_app f [] l).
Qed.

(** *** Zero matrices *)

Lemma Table_ctor_data :
  Table_ctor layout (NumRows:=NumRows) (NumCols:=NumCols)
  = mkTable (replicate (NumRows * NumCols) r0).
Proof.
  assert (Hset : ∀ a b, storage_set layout
            (mkTable (NumRows:=NumRows) (NumCols:=NumCols) (replicate (NumRows * NumCols) r0))
            a b r0 = mkTable (replicate (NumRows * NumCols) r0)).
  { intros a b. unfold storage_set. simpl. f_equal.
    apply list_insert_id'. rewrite length_replicate. apply lookup_replicate_2. }
  unfold Table_ctor. destruct layout.
  - apply (for_range_ind (λ _ T, T = mkTable (replicate (NumRows * NumCols) r0))); [done|].
    intros r T _ ->.
    apply (for_range_ind (λ _ T, T = mkTable (replicate (NumRows * NumCols) r0))); [done|].
    intros c T _ ->. apply Hset.
  - apply (for_range_ind (λ _ T, T = mkTable (replicate (NumRows * NumCols) r0))); [done|].
    intros c T _ ->.
    apply (for_range_ind (λ _ T, T = mkTable (replicate (NumRows * NumCols) r0))); [done|].
    intros r T _ ->. apply Hset.
Qed.

Lemma MakeZero_data M :
  wf M → MakeZero M = mkMatrix (mkTable (replicate (NumRows * NumCols) r0)).
Proof.
  intros Hwf. unfold MakeZero.
  rewrite (idx_loop (λ _, r0) M Hwf). do 2 f_equal.
  unfold wf in Hwf. rewrite <- Hwf.
  clear Hwf. generalize (mStorage (mTable M)). intros l.
  induction l as [|x l IH]; simpl; [done|]. by rewrite IH.
Qed.

Lemma wf_replicate :
  wf (mkMatrix (mkTable (NumRows:=NumRows) (NumCols:=NumCols)
        (replicate (NumRows * NumCols) r0))).
Proof. unfold wf. simpl. apply length_replicate. Qed.

Lemma Matrix_ctor_data :
  Matrix_ctor layout = mkMatrix (mkTable (NumRows:=NumRows) (NumCols:=NumCols)
                          (replicate (NumRows * NumCols) r0)).
Proof.
  unfold Matrix_ctor. rewrite Table_ctor_data. apply MakeZero_data, wf_replicate.
Qed.

Lemma Zero_data :
  Zero layout = mkMatrix (mkTable (NumRows:=NumRows) (NumCols:=NumCols)
                   (replicate (NumRows * NumCols) r0)).
Proof.
  unfold Zero. rewrite Matrix_ctor_data. apply MakeZero_data, wf_replicate.
Qed.

Lemma wf_Zero : wf (Zero layout (NumRows:=NumRows) (NumCols:=NumCols)).
Proof. rewrite Zero_data. apply wf_replicate. Qed.

Lemma Mat_at_Zero r c :
  Mat_at layout (Zero layout (NumRows:=NumRows) (NumCols:=NumCols)) r c = r0.
Proof.
  rewrite Mat_at_slot, Zero_data. simpl.
  destruct (replicate _ _ !! _) as [x|] eqn:Hx; [|done].
  apply lookup_replicate_1 in Hx as [-> _]. done.
Qed.

Lemma Matrix_ctor_Zero : Matrix_ctor layout (NumRows:=NumRows) (NumCols:=NumCols) = Zero layout.
Proof. by rewrite Matrix_ctor_data, Zero_data. Qed.

Lemma Table_ctor_Zero :
  mkMatrix (Table_ctor layout (NumRows:=NumRows) (NumCols:=NumCols)) = Zero layout.
Proof. by rewrite Table_ctor_data, Zero_data. Qed.

Lemma MakeZero_Zero M : wf M → MakeZero M = Zero layout.
Proof. intros Hwf. by rewrite MakeZero_data, Zero_data. Qed.

(** The zero matrix holds [g] wherever [g] is zero. *)
Lemma good_Zero g (D : nat → nat → Prop) :
  (∀ r c, r < NumRows → c < NumCols → D r c → g r c = r0) →
  good layout g (Zero layout (NumRows:=NumRows) (NumCols:=NumCols)) D.
Proof.
  intros Hg. split; [apply wf_Zero|].
  intros r c Hr Hc HD. rewrite Mat_at_Zero. symmetry. by apply Hg.
Qed.

(** A well-formed matrix holds its own elements. *)
Lemma good_self M (D : nat → nat → Prop) : wf M → good layout (Mat_at layout M) M D.
Proof. intros Hwf. split; [done|]. done. Qed.
End TableFacts.

(** ** Constructors and special matrices *)

Section Constructors.
Context {Real : Type} `{RealOps Real}.
Variable layout : Layout.
Context {NumRows NumCols : nat}.
Implicit Types (M : Matrix (Real:=Real) NumRows NumCols) (r c i : nat) (v : Real).

(** The array constructor, with the running index [i] resolved to
    [r * NumCols + c]. *)
Lemma Matrix_array_loop (values : list Real) :
  Matrix_array layout values =
  for_range 0 NumRows (λ r M,
    for_range 0 NumCols (λ c M,
      Mat_set layout M r c (default r0 (values !! (r * NumCols + c)))) M)
    (Zero layout (NumRows:=NumRows) (NumCols:=NumCols)).
Proof.
  unfold Matrix_array. rewrite Table_ctor_Zero.
  match goal with |- snd (for_range 0 _ ?b ?s) = for_range 0 _ ?b' ?s' =>
    pose proof (for_range_rel
      (λ r (t : nat * Matrix NumRows NumCols) t', t.1 = r * NumCols ∧ t.2 = t')
      0 NumRows b b' s s') as Hrel
  end.
  simpl in Hrel. apply Hrel; [done|]. clear Hrel.
  intros r [i M] M' Hr [Hi HM]. simpl in Hi, HM. subst i M'.
  match goal with |- (for_range 0 _ ?b ?s).1 = _ ∧ (for_range 0 _ ?b ?s).2 = for_range 0 _ ?b' ?s' =>
    pose proof (for_range_rel
      (λ c (t : nat * Matrix NumRows NumCols) t', t.1 = r * NumCols + c ∧ t.2 = t')
      0 NumCols b b' s s') as Hrel
  end.
  simpl in Hrel. replace (NumCols + r * NumCols) with (r * NumCols + NumCols) by lia.
  apply Hrel; [split; [lia|done]|]. clear Hrel.
  intros c [i M''] M' Hc [Hi HM]. simpl in Hi, HM. subst i M'. simpl. split; [lia|done].
Qed.

Lemma Matrix_array_good (values : list Real) :
  good layout (λ r c, default r0 (values !! (r * NumCols + c)))
    (Matrix_array layout values : Matrix NumRows NumCols) (λ _ _, True).
Proof.
  rewrite Matrix_array_loop. eapply good_weaken.
  - apply good_rect_loop with (D := λ _ _, False); [|done|done|done].
    split; [apply wf_Zero|done].
  - simpl. intros r c Hr Hc _. right. done.
Qed.

Lemma MakeUnit_good (r c : Z) M :
  wf M → good layout (unit_entry r c) (MakeUnit layout r c M) (λ _ _, True).
Proof.
  intros Hwf. unfold MakeUnit. rewrite (MakeZero_Zero layout) by done.
  destruct (_ && _)%Z eqn:Hrange.
  - apply andb_prop in Hrange as [Hrange Hc2].
    apply andb_prop in Hrange as [Hrange Hc1].
    apply andb_prop in Hrange as [Hr1 Hr2].
    eapply good_weaken.
    + apply (good_set layout (unit_entry r c) (Zero layout)
               (λ r' c', ¬ (r = Z.of_nat r' ∧ c = Z.of_nat c'))).
      * apply good_Zero. intros r' c' _ _ Hne. unfold unit_entry.
        by rewrite decide_False.
      * lia.
      * lia.
      * unfold unit_entry. rewrite decide_True; [done|lia].
    + simpl. intros r' c' _ _ _.
      destruct (decide (r = Z.of_nat r' ∧ c = Z.of_nat c')); [right; lia|by left].
  - apply good_Zero. intros r' c' Hr' Hc' _. unfold unit_entry.
    rewrite decide_False; [done|]. intros [-> ->].
    rewrite !andb_false_iff in Hrange. lia.
Qed.

Lemma MakeIdentity_good M :
  wf M → good layout identity_entry (MakeIdentity layout M) (λ _ _, True).
Proof.
  intros Hwf. unfold MakeIdentity. rewrite (MakeZero_Zero layout) by done.
  set (numDiagonal := if NumRows <=? NumCols then NumRows else NumCols).
  assert (HnR : numDiagonal ≤ NumRows) by (subst numDiagonal; destruct (Nat.leb_spec NumRows NumCols); lia).
  assert (HnC : numDiagonal ≤ NumCols) by (subst numDiagonal; destruct (Nat.leb_spec NumRows NumCols); lia).
  assert (Hn : ∀ i, i < NumRows → i < NumCols → i < numDiagonal)
    by (subst numDiagonal; destruct (Nat.leb_spec NumRows NumCols); lia).
  eapply good_weaken.
  - apply (for_range_ind
      (λ j M, good layout identity_entry M (λ r c, r ≠ c ∨ r < j))).
    + apply good_Zero. intros r c _ _ [Hne|?]; [|lia].
      unfold identity_entry. by rewrite decide_False.
    + intros j M' Hj HM'. eapply good_weaken.
      * apply (good_set layout identity_entry M' _ j j r1 HM'); [lia|lia|].
        unfold identity_entry. by rewrite decide_True.
      * simpl. intros r c _ _ [?|Hlt]; [tauto|].
        destruct (decide (r = c)) as [<-|]; [|tauto].
        destruct (decide (r = j)); [tauto|]. left. right. lia.
  - simpl. intros r c Hr Hc _.
    destruct (decide (r = c)) as [<-|]; [right; auto|by left].
Qed.

Lemma Identity_good :
  good layout identity_entry (Identity layout : Matrix NumRows NumCols) (λ _ _, True).
Proof. unfold Identity. rewrite Matrix_ctor_Zero. apply MakeIdentity_good, wf_Zero. Qed.
End Constructors.

(** ** The accessor and the layout policy *)

Section Accessor.
Context {Real : Type} `{RealOps Real}.
Context {NumRows NumCols : nat}.

Lemma assign_all_agree (ws : list (nat * nat * Real))
    (M1 M2 : Matrix (Real:=Real) NumRows NumCols) :
  Forall (λ w, w.1.1 < NumRows ∧ w.1.2 < NumCols) ws →
  wf M1 → wf M2 →
  (∀ r c, r < NumRows → c < NumCols → Mat_at RowMajor M1 r c = Mat_at ColMajor M2 r c) →
  ∀ r c, r < NumRows → c < NumCols →
    Mat_at RowMajor (assign_all RowMajor ws M1) r c
    = Mat_at ColMajor (assign_all ColMajor ws M2) r c.
Proof.
  intros Hws. revert M1 M2.
  induction Hws as [|[[r' c'] v] ws [Hr' Hc'] _ IH]; intros M1 M2 Hwf1 Hwf2 Hagree; simpl.
  - done.
  - simpl in Hr', Hc'. apply IH; [by apply wf_set..|].
    intros r c Hr Hc. destruct (decide (r = r' ∧ c = c')) as [[-> ->]|Hne].
    + by rewrite !Mat_at_set_eq.
    + rewrite !Mat_at_set_ne by done. by apply Hagree.
Qed.

(** C3. A matrix built from the same row-major list of values and then
    assigned through [M(r, c) = v] by the same in-range statements reads
    the same value at every valid [(r, c)] in a row-major build and in a
    column-major build: the accessor does not depend on the layout policy. *)
Theorem accessor_layout_independent (values : list Real)
    (ws : list (nat * nat * Real)) (r c : nat) :
  Forall (λ w, w.1.1 < NumRows ∧ w.1.2 < NumCols) ws →
  r < NumRows → c < NumCols →
  Mat_at RowMajor (assign_all RowMajor ws (Matrix_array RowMajor values : Matrix NumRows NumCols)) r c
  = Mat_at ColMajor (assign_all ColMajor ws (Matrix_array ColMajor values : Matrix NumRows NumCols)) r c.
Proof.
  intros Hws Hr Hc.
  destruct (Matrix_array_good RowMajor (NumRows:=NumRows) (NumCols:=NumCols) values) as [Hwf1 Hat1].
  destruct (Matrix_array_good ColMajor (NumRows:=NumRows) (NumCols:=NumCols) values) as [Hwf2 Hat2].
  apply assign_all_agree; [done..| |done|done].
  intros r' c' Hr' Hc'. by rewrite Hat1, Hat2.
Qed.
End Accessor.

Lemma accessor_layout_independent_witness :
  Mat_at RowMajor (assign_all RowMajor [(1, 2, 9%Z)] (M_2x3 RowMajor)) 0 1
  = Mat_at ColMajor (assign_all ColMajor [(1, 2, 9%Z)] (M_2x3 ColMajor)) 0 1.
Proof.
  apply (accessor_layout_independent (NumRows:=2) (NumCols:=3)
           [1; 2; 3; 4; 5; 6]%Z [(1, 2, 9%Z)] 0 1).
  - repeat constructor; simpl; lia.
  - lia.
  - lia.
Defined.

(** ** Basis matrices *)

Section Basis.
Context {Real : Type} `{RealOps Real}.
Variable layout : Layout.
Context {NumRows NumCols : nat}.

(** C6. [MakeUnit(r, c)], [Unit(r, c)] and the [(r, c)] constructor all
    produce the same matrix, for every pair of integers and without
    failing: its element [(r', c')] is 1 when [(r', c') = (r, c)] and 0
    otherwise, so it is the zero matrix when [r] or [c] is out of range. *)
Theorem MakeUnit_basis (r c : Z) (M : Matrix (Real:=Real) NumRows NumCols) :
  wf M →
  MakeUnit layout r c M = Unit layout r c ∧
  Matrix_rc layout r c = (Unit layout r c : Matrix NumRows NumCols) ∧
  wf (Unit layout r c : Matrix NumRows NumCols) ∧
  (∀ r' c', r' < NumRows → c' < NumCols →
     Mat_at layout (Unit layout r c : Matrix NumRows NumCols) r' c'
     = if decide (r = Z.of_nat r' ∧ c = Z.of_nat c') then r1 else r0) ∧
  (¬ (0 ≤ r < Z.of_nat NumRows ∧ 0 ≤ c < Z.of_nat NumCols)%Z →
     (Unit layout r c : Matrix NumRows NumCols) = Zero layout).
Proof.
  intros Hwf.
  assert (HU : good layout (unit_entry r c) (Unit layout r c : Matrix NumRows NumCols) (λ _ _, True)).
  { unfold Unit. rewrite Matrix_ctor_Zero. apply MakeUnit_good, wf_Zero. }
  split; [|split; [|split; [|split]]].
  - apply (good_eq layout (unit_entry r c)); [by apply MakeUnit_good|done].
  - apply (good_eq layout (unit_entry r c)); [|done].
    unfold Matrix_rc. rewrite Table_ctor_Zero. apply MakeUnit_good, wf_Zero.
  - apply HU.
  - intros r' c' Hr' Hc'. by apply HU.
  - intros Hout. apply (good_eq layout (unit_entry r c)); [done|].
    apply good_Zero. intros r' c' Hr' Hc' _. unfold unit_entry.
    rewrite decide_False; [done|lia].
Qed.
End Basis.

Lemma MakeUnit_basis_witness :
  MakeUnit RowMajor 1 2 (M_2x3 RowMajor) = Unit RowMajor 1 2 ∧
  rows_of RowMajor (Unit RowMajor 1 2 : Matrix (Real:=Z) 2 3) = [[0; 0; 0]; [0; 0; 1]]%Z ∧
  (Unit RowMajor 2 (-1) : Matrix (Real:=Z) 2 3) = Zero RowMajor.
Proof.
  assert (Hwf : wf (M_2x3 RowMajor)) by reflexivity.
  split; [|split].
  - exact (proj1 (MakeUnit_basis RowMajor 1 2 (M_2x3 RowMajor) Hwf)).
  - reflexivity.
  - apply (MakeUnit_basis RowMajor 2 (-1) (M_2x3 RowMajor) Hwf). lia.
Defined.

(** ** Scalar division *)

Section ScalarDivision.
Context {Real : Type} `{RealOps Real}.
Variable layout : Layout.
Context {NumRows NumCols : nat}.

(** C5. [M / s] is [M /= s] on a copy.  When [s] is the zero scalar
    ([s != (Real)0] is false) the result is the all-zero matrix of the
    shape of [M]; otherwise every element is multiplied by [1 / s].  Both
    branches return a matrix: nothing is raised. *)
Theorem op_div_zero_or_reciprocal (M : Matrix (Real:=Real) NumRows NumCols) (s : Real) :
  wf M →
  op_div M s = op_div_assign M s ∧
  (rne s r0 = false → op_div M s = Zero layout) ∧
  (rne s r0 = true →
     wf (op_div M s) ∧
     (∀ i, i < NumRows * NumCols →
        Mat_idx (op_div M s) i = rmul (Mat_idx M i) (rdiv r1 s)) ∧
     (∀ r c, r < NumRows → c < NumCols →
        Mat_at layout (op_div M s) r c = rmul (Mat_at layout M r c) (rdiv r1 s))).
Proof.
  intros Hwf. split; [done|]. unfold op_div, op_div_assign. split; intros ->.
  - by apply MakeZero_Zero.
  - rewrite (idx_loop (λ x, rmul x (rdiv r1 s)) M Hwf).
    assert (Hlook : ∀ i, i < NumRows * NumCols →
      default r0 (map (λ x, rmul x (rdiv r1 s)) (mStorage (mTable M)) !! i)
      = rmul (default r0 (mStorage (mTable M) !! i)) (rdiv r1 s)).
    { intros i Hi. change (map ?f ?l) with (f <$> l). rewrite list_lookup_fmap.
      destruct (lookup_lt_is_Some_2 (mStorage (mTable M)) i) as [x ->]; [|done].
      unfold wf in Hwf. lia. }
    split; [|split].
    + unfold wf. simpl. by rewrite length_map.
    + intros i Hi. rewrite !Mat_idx_data. simpl. by apply Hlook.
    + intros r c Hr Hc. rewrite !(Mat_at_slot layout). simpl.
      apply Hlook. by apply slot_lt.
Qed.
End ScalarDivision.

Lemma op_div_zero_or_reciprocal_witness :
  op_div (M_2x3 ColMajor) 0%Z = Zero ColMajor ∧
  Mat_at ColMajor (op_div (M_2x3 ColMajor) (-1)%Z) 1 2
  = rmul (Mat_at ColMajor (M_2x3 ColMajor) 1 2) (rdiv r1 (-1)%Z).
Proof.
  assert (Hwf : wf (M_2x3 ColMajor)) by reflexivity.
  split.
  - apply (op_div_zero_or_reciprocal ColMajor (M_2x3 ColMajor) 0%Z Hwf). reflexivity.
  - apply (op_div_zero_or_reciprocal ColMajor (M_2x3 ColMajor) (-1)%Z Hwf); [reflexivity|lia|lia].
Defined.

(** ** Norms *)

(** [LInfinityNorm] starts from [M[0]] itself, where [L1Norm] starts from
    [std::fabs(M[0])]: on a 1-by-1 matrix it returns the element as it is. *)
Lemma LInfinityNorm_1x1 {Real : Type} `{RealOps Real} (M : Matrix (Real:=Real) 1 1) :
  LInfinityNorm M = Mat_idx M 0 ∧ L1Norm M = rabs (Mat_idx M 0).
Proof. done. Qed.

(** C2. On the 1-by-2 matrix [[-5, 1]] the largest absolute value of an
    element is 5, and [LInfinityNorm] returns 1: the first element enters
    the maximum without [std::fabs]. *)
Theorem LInfinityNorm_negative_first (layout : Layout) :
  rows_of layout (M_1x2_neg layout) = [[-5; 1]]%Z ∧
  rabs (Mat_at layout (M_1x2_neg layout) 0 0) = 5%Z ∧
  rabs (Mat_at layout (M_1x2_neg layout) 0 1) = 1%Z ∧
  LInfinityNorm (M_1x2_neg layout) = 1%Z.
Proof. by destruct layout. Qed.

(** ** The buffer handed to the elimination collaborator *)

Section SolverBuffer.
Context {Real : Type} `{RealOps Real}.
Variable GaussianElimination : nat → list Real → option (list Real) → GEResult Real.
Variable layout : Layout.
Context {N : nat}.

(** C1 (as the code has it).  [Inverse] and [Determinant] hand the
    collaborator the storage block of [M] as it is: element [r * N + c] of
    the buffer is [M(r, c)] in a row-major build and [M(c, r)] in a
    column-major build, where the buffer is the row-major flattening of the
    transpose. *)
Theorem solver_buffer_is_storage (M : Matrix (Real:=Real) N N) :
  wf M →
  Determinant GaussianElimination M
    = ge_determinant (GaussianElimination N (Mat_data M) None) ∧
  (Inverse layout GaussianElimination M).2
    = ge_invertible (GaussianElimination N (Mat_data M) (Some (Mat_data (Zero layout : Matrix N N)))) ∧
  length (Mat_data M) = N * N ∧
  ∀ r c, r < N → c < N →
    Mat_data M !! (r * N + c)
    = Some (match layout with
            | RowMajor => Mat_at layout M r c
            | ColMajor => Mat_at layout M c r
            end).
Proof.
  intros Hwf. split; [done|]. split; [|split; [done|]].
  - unfold Inverse. simpl. by rewrite Matrix_ctor_Zero.
  - intros r c Hr Hc. unfold Mat_data.
    destruct (lookup_lt_is_Some_2 (mStorage (mTable M)) (r * N + c)) as [x Hx].
    { unfold wf in Hwf. nia. }
    rewrite Hx. f_equal.
    destruct layout; rewrite Mat_at_slot; unfold slot; by rewrite Hx.
Qed.
End SolverBuffer.

Lemma solver_buffer_is_storage_witness :
  Determinant GE_2x2 (M_2x2 RowMajor) = (-2)%Z ∧
  Mat_data (M_2x2 ColMajor) !! (0 * 2 + 1) = Some (Mat_at ColMajor (M_2x2 ColMajor) 1 0).
Proof.
  split.
  - reflexivity.
  - apply (solver_buffer_is_storage GE_2x2 ColMajor (M_2x2 ColMajor)); [reflexivity|lia|lia].
Defined.

(** In a column-major build, element [0 * 2 + 1] of the buffer passed for
    [[1, 2], [3, 4]] is 3, which is [M(1, 0)], while [M(0, 1)] is 2. *)
Lemma solver_buffer_col_major_counterexample :
  Mat_at ColMajor (M_2x2 ColMajor) 0 1 = 2%Z ∧
  Mat_data (M_2x2 ColMajor) !! (0 * 2 + 1) = Some 3%Z ∧
  Mat_data (M_2x2 ColMajor) !! (0 * 2 + 1) ≠ Some (Mat_at ColMajor (M_2x2 ColMajor) 0 1).
Proof. split; [|split]; [reflexivity|reflexivity|discriminate]. Qed.

(** ** Transpose *)

Section TransposeFacts.
Context {Real : Type} `{RealOps Real}.
Variable layout : Layout.
Context {NumRows NumCols : nat}.

Lemma Transpose_good (M : Matrix (Real:=Real) NumRows NumCols) :
  good layout (λ r c, Mat_at layout M c r) (Transpose layout M) (λ _ _, True).
Proof.
  unfold Transpose. rewrite Matrix_ctor_Zero. eapply good_weaken.
  - apply (good_rect_loop_cols layout (λ r c, Mat_at layout M c r) (Zero layout)
             (λ _ _, False) NumRows NumCols (λ r c, Mat_at layout M r c));
      [|done|done|done].
    split; [apply wf_Zero|done].
  - simpl. intros r c Hr Hc _. right. done.
Qed.

Lemma Mat_at_Transpose (M : Matrix (Real:=Real) NumRows NumCols) r c :
  r < NumRows → c < NumCols →
  Mat_at layout (Transpose layout M) c r = Mat_at layout M r c.
Proof. intros Hr Hc. by apply Transpose_good. Qed.
End TransposeFacts.

(** C8. [Transpose M] is a well-formed [NumCols]-by-[NumRows] matrix with
    [Transpose(M)(c, r) = M(r, c)] at every valid [(r, c)], and transposing
    twice gives back [M]. *)
Theorem Transpose_involutive {Real : Type} `{RealOps Real} (layout : Layout)
    {NumRows NumCols : nat} (M : Matrix (Real:=Real) NumRows NumCols) :
  wf M →
  wf (Transpose layout M) ∧
  (∀ r c, r < NumRows → c < NumCols →
     Mat_at layout (Transpose layout M) c r = Mat_at layout M r c) ∧
  Transpose layout (Transpose layout M) = M.
Proof.
  intros Hwf. split; [apply Transpose_good|]. split.
  - intros r c. apply Mat_at_Transpose.
  - apply (Matrix_eq_at layout); [apply Transpose_good|done|].
    intros r c Hr Hc. rewrite !Mat_at_Transpose by done. done.
Qed.

Lemma Transpose_involutive_witness :
  rows_of ColMajor (Transpose ColMajor (M_2x3 ColMajor)) = [[1; 4]; [2; 5]; [3; 6]]%Z ∧
  Transpose ColMajor (Transpose ColMajor (M_2x3 ColMajor)) = M_2x3 ColMajor.
Proof.
  split.
  - reflexivity.
  - apply (Transpose_involutive ColMajor (M_2x3 ColMajor)). reflexivity.
Defined.

(** ** Products *)

Section ProductFacts.
Context {Real : Type} `{RealOps Real}.
Variable layout : Layout.

Lemma Mat_set_accumulate {NumRows NumCols : nat}
    (M : Matrix (Real:=Real) NumRows NumCols) r c a x :
  Mat_set layout (Mat_set layout M r c a) r c
    (radd (Mat_at layout (Mat_set layout M r c a) r c) x)
  = Mat_set layout M r c (radd a x).
Proof.
  rewrite Mat_at_slot, !Mat_set_slot. simpl. do 2 f_equal.
  set (k := slot layout NumRows NumCols r c). set (l := mStorage (mTable M)).
  destruct (decide (k < length l)) as [Hlt|Hge].
  - rewrite list_lookup_insert_eq by done. simpl. apply list_insert_insert_eq.
  - by rewrite !(list_insert_ge l) by lia.
Qed.

(** The innermost loop of the products: [result(r, c) += t i] for
    [i = lo, ..., lo + n - 1], entered after [result(r, c) = a]. *)
Lemma accumulate_loop {NumRows NumCols : nat}
    (M : Matrix (Real:=Real) NumRows NumCols) r c (t : nat → Real) lo n a :
  for_range lo n (λ i M, Mat_set layout M r c (radd (Mat_at layout M r c) (t i)))
    (Mat_set layout M r c a)
  = Mat_set layout M r c (for_range lo n (λ i acc, radd acc (t i)) a).
Proof.
  revert lo a. induction n as [|n IH]; intros lo a; simpl; [done|].
  rewrite Mat_set_accumulate. apply IH.
Qed.

Lemma dot_ext n (a b a' b' : nat → Real) :
  (∀ i, i < n → a i = a' i) → (∀ i, i < n → b i = b' i) → dot n a b = dot n a' b'.
Proof.
  intros Ha Hb. unfold dot. apply for_range_ext.
  intros i acc Hi. rewrite Ha, Hb by lia. done.
Qed.

Context {NumRows NumCols NumCommon : nat}.

Lemma MultiplyAB_loop (A : Matrix (Real:=Real) NumRows NumCommon) (B : Matrix NumCommon NumCols) :
  MultiplyAB layout A B =
  for_range 0 NumRows (λ r M, for_range 0 NumCols (λ c M,
    Mat_set layout M r c
      (dot NumCommon (λ i, Mat_at layout A r i) (λ i, Mat_at layout B i c))) M)
    (Zero layout).
Proof.
  unfold MultiplyAB. rewrite Matrix_ctor_Zero.
  apply for_range_ext. intros r M _. apply for_range_ext. intros c M' _.
  apply (accumulate_loop M' r c (λ i, rmul (Mat_at layout A r i) (Mat_at layout B i c))).
Qed.

Lemma MultiplyABT_loop (A : Matrix (Real:=Real) NumRows NumCommon) (B : Matrix NumCols NumCommon) :
  MultiplyABT layout A B =
  for_range 0 NumRows (λ r M, for_range 0 NumCols (λ c M,
    Mat_set layout M r c
      (dot NumCommon (λ i, Mat_at layout A r i) (λ i, Mat_at layout B c i))) M)
    (Zero layout).
Proof.
  unfold MultiplyABT. rewrite Matrix_ctor_Zero.
  apply for_range_ext. intros r M _. apply for_range_ext. intros c M' _.
  apply (accumulate_loop M' r c (λ i, rmul (Mat_at layout A r i) (Mat_at layout B c i))).
Qed.

Lemma MultiplyATB_loop (A : Matrix (Real:=Real) NumCommon NumRows) (B : Matrix NumCommon NumCols) :
  MultiplyATB layout A B =
  for_range 0 NumRows (λ r M, for_range 0 NumCols (λ c M,
    Mat_set layout M r c
      (dot NumCommon (λ i, Mat_at layout A i r) (λ i, Mat_at layout B i c))) M)
    (Zero layout).
Proof.
  unfold MultiplyATB. rewrite Matrix_ctor_Zero.
  apply for_range_ext. intros r M _. apply for_range_ext. intros c M' _.
  apply (accumulate_loop M' r c (λ i, rmul (Mat_at layout A i r) (Mat_at layout B i c))).
Qed.

Lemma MultiplyAB_good (A : Matrix (Real:=Real) NumRows NumCommon) (B : Matrix NumCommon NumCols) :
  good layout
    (λ r c, dot NumCommon (λ i, Mat_at layout A r i) (λ i, Mat_at layout B i c))
    (MultiplyAB layout A B) (λ _ _, True).
Proof.
  rewrite MultiplyAB_loop. eapply good_weaken.
  - apply good_rect_loop with (D := λ _ _, False); [|done|done|done].
    split; [apply wf_Zero|done].
  - simpl. intros r c Hr Hc _. right. done.
Qed.

(** C7. The three product variants run the same loops and accumulate the
    same products in the same order: [MultiplyAB(A, B)] has the same
    storage as [MultiplyABT(A, Transpose(B))] and as
    [MultiplyATB(Transpose(A), B)], whatever the element type. *)
Theorem MultiplyAB_transposed_variants
    (A : Matrix (Real:=Real) NumRows NumCommon) (B : Matrix NumCommon NumCols) :
  MultiplyAB layout A B = MultiplyABT layout A (Transpose layout B) ∧
  MultiplyAB layout A B = MultiplyATB layout (Transpose layout A) B.
Proof.
  rewrite MultiplyAB_loop, MultiplyABT_loop, MultiplyATB_loop. split.
  - apply for_range_ext. intros r M Hr. apply for_range_ext. intros c M' Hc.
    f_equal. apply dot_ext; [done|].
    intros i Hi. symmetry. apply Mat_at_Transpose; lia.
  - apply for_range_ext. intros r M Hr. apply for_range_ext. intros c M' Hc.
    f_equal. apply dot_ext; [|done].
    intros i Hi. symmetry. apply Mat_at_Transpose; lia.
Qed.
End ProductFacts.

(** ** Homogeneous lift and projection *)

Section Homogeneous.
Context {Real : Type} `{RealOps Real}.
Variable layout : Layout.
Context {N : nat}.

Lemma HLift_good (M : Matrix (Real:=Real) N N) :
  good layout (lift_entry layout M) (HLift layout M) (λ _ _, True).
Proof.
  unfold HLift. rewrite Matrix_ctor_Zero. eapply good_weaken.
  - apply (good_rect_loop layout (lift_entry layout M) (MakeIdentity layout (Zero layout))
             (λ r c, ¬ (r < N ∧ c < N)) N N (Mat_at layout M)).
    + destruct (MakeIdentity_good layout (Zero layout) (wf_Zero layout (NumRows:=N + 1) (NumCols:=N + 1)))
        as [Hwf Hid].
      split; [done|]. intros r c Hr Hc Hout. rewrite Hid by done.
      unfold identity_entry, lift_entry.
      destruct (Nat.ltb_spec r N), (Nat.ltb_spec c N); simpl; try lia;
        destruct (Nat.eqb_spec r N), (Nat.eqb_spec c N); simpl;
        destruct (decide (r = c)); try done; lia.
    + lia.
    + lia.
    + intros r c Hr Hc. unfold lift_entry.
      destruct (Nat.ltb_spec r N), (Nat.ltb_spec c N); simpl; try lia. done.
  - simpl. intros r c _ _ _.
    destruct (decide (r < N ∧ c < N)); [by right|by left].
Qed.

Lemma HProject_good (X : Matrix (Real:=Real) (N + 1) (N + 1)) :
  good layout (Mat_at layout X) (HProject layout X) (λ _ _, True).
Proof.
  unfold HProject. rewrite Matrix_ctor_Zero.
  replace (N + 1 - 1) with N by lia. eapply good_weaken.
  - apply good_rect_loop with (D := λ _ _, False); [|done|done|done].
    split; [apply wf_Zero|done].
  - simpl. intros r c Hr Hc _. right. done.
Qed.

(** C9. [HLift M] is the well-formed [(N+1)]-by-[(N+1)] matrix whose
    top-left [N]-by-[N] block is [M], whose bottom-right element is 1 and
    whose other elements are 0; [HProject] reads back the top-left block;
    so [HProject (HLift M) == M]. *)
Theorem HProject_HLift (M : Matrix (Real:=Real) N N) :
  wf M → 1 ≤ N →
  wf (HLift layout M) ∧
  (∀ r c, r < N + 1 → c < N + 1 →
     Mat_at layout (HLift layout M) r c
     = if (r <? N) && (c <? N) then Mat_at layout M r c
       else if (r =? N) && (c =? N) then r1
       else r0) ∧
  (∀ (X : Matrix (N + 1) (N + 1)) r c, r < N → c < N →
     Mat_at layout (HProject layout X) r c = Mat_at layout X r c) ∧
  HProject layout (HLift layout M) = M.
Proof.
  intros Hwf HN. destruct (HLift_good M) as [HwfL HatL].
  split; [done|]. split; [|split].
  - intros r c Hr Hc. by apply HatL.
  - intros X r c Hr Hc. by apply HProject_good.
  - apply (Matrix_eq_at layout); [apply HProject_good|done|].
    intros r c Hr Hc.
    destruct (HProject_good (HLift layout M)) as [_ ->]; [|done..].
    rewrite HatL by lia. unfold lift_entry.
    destruct (Nat.ltb_spec r N), (Nat.ltb_spec c N); simpl; try lia. done.
Qed.
End Homogeneous.

Lemma HProject_HLift_witness :
  rows_of ColMajor (HLift ColMajor (M_2x2 ColMajor)) = [[1; 2; 0]; [3; 4; 0]; [0; 0; 1]]%Z ∧
  HProject ColMajor (HLift ColMajor (M_2x2 ColMajor)) = M_2x2 ColMajor.
Proof.
  split.
  - reflexivity.
  - apply (HProject_HLift ColMajor (M_2x2 ColMajor)); [reflexivity|lia].
Defined.

(** ** The identity as a unit of the product *)

Section IdentityProduct.
Context {Real : Type} `{RealOps Real}.

(** The identities the two products use, each on the side on which the
    loops apply it: [result(r, c)] starts at 0 and a product is added to it
    on the right; the entry of the identity is the left factor in
    [Identity * M] and the right factor in [M * Identity]. *)
Section Laws.
Hypothesis rmul_1_l : ∀ x : Real, rmul r1 x = x.
Hypothesis rmul_0_l : ∀ x : Real, rmul r0 x = r0.
Hypothesis rmul_1_r : ∀ x : Real, rmul x r1 = x.
Hypothesis rmul_0_r : ∀ x : Real, rmul x r0 = r0.
Hypothesis radd_0_r : ∀ x : Real, radd x r0 = x.
Hypothesis radd_0_l : ∀ x : Real, radd r0 x = x.

(** Terms that are zero leave the accumulator as it is. *)
Lemma accumulate_zero_terms (t : nat → Real) lo n a :
  (∀ j, lo ≤ j < lo + n → t j = r0) →
  for_range lo n (λ j acc, radd acc (t j)) a = a.
Proof using radd_0_r.
  revert lo a. induction n as [|n IH]; intros lo a Ht; simpl; [done|].
  rewrite Ht by lia. rewrite radd_0_r. apply IH.
  intros j Hj. apply Ht. lia.
Qed.

(** When every term but the one at index [k] is zero, the sum accumulated
    from 0 is the term at [k]. *)
Lemma accumulate_single_term (t : nat → Real) k lo n :
  lo ≤ k < lo + n → (∀ j, j ≠ k → t j = r0) →
  for_range lo n (λ j acc, radd acc (t j)) r0 = t k.
Proof using radd_0_r radd_0_l.
  revert lo. induction n as [|n IH]; intros lo Hk Ht; simpl; [lia|].
  destruct (decide (lo = k)) as [->|Hne].
  - rewrite radd_0_l. apply accumulate_zero_terms. intros j Hj. apply Ht. lia.
  - rewrite (Ht lo) by done. rewrite radd_0_r. apply IH; [lia|done].
Qed.

Lemma dot_identity_l n k (m : nat → Real) :
  k < n → dot n (identity_entry k) m = m k.
Proof using rmul_1_l rmul_0_l radd_0_r radd_0_l.
  intros Hk. unfold dot.
  rewrite (accumulate_single_term (λ j, rmul (identity_entry k j) (m j)) k); [|lia|].
  - unfold identity_entry. by rewrite decide_True.
  - intros j Hj. unfold identity_entry. by rewrite decide_False.
Qed.

Lemma dot_identity_r n k (m : nat → Real) :
  k < n → dot n m (λ i, identity_entry i k) = m k.
Proof using rmul_1_r rmul_0_r radd_0_r radd_0_l.
  intros Hk. unfold dot.
  rewrite (accumulate_single_term (λ j, rmul (m j) (identity_entry j k)) k); [|lia|].
  - unfold identity_entry. by rewrite decide_True.
  - intros j Hj. unfold identity_entry. by rewrite decide_False.
Qed.

Lemma MultiplyAB_Identity_l (layout : Layout) {N NumCols : nat}
    (M : Matrix (Real:=Real) N NumCols) :
  wf M → MultiplyAB layout (Identity layout : Matrix N N) M = M.
Proof using rmul_1_l rmul_0_l radd_0_r radd_0_l.
  intros Hwf.
  destruct (Identity_good layout (NumRows:=N) (NumCols:=N)) as [_ HI].
  apply (Matrix_eq_at layout); [apply MultiplyAB_good|done|].
  intros r c Hr Hc.
  destruct (MultiplyAB_good layout (Identity layout : Matrix N N) M) as [_ ->]; [|done..].
  rewrite (dot_ext N _ _ (identity_entry r) (λ i, Mat_at layout M i c)).
  - by apply (dot_identity_l N r (λ i, Mat_at layout M i c)).
  - intros i Hi. by apply HI.
  - done.
Qed.

Lemma MultiplyAB_Identity_r (layout : Layout) {N NumRows : nat}
    (M : Matrix (Real:=Real) NumRows N) :
  wf M → MultiplyAB layout M (Identity layout : Matrix N N) = M.
Proof using rmul_1_r rmul_0_r radd_0_r radd_0_l.
  intros Hwf.
  destruct (Identity_good layout (NumRows:=N) (NumCols:=N)) as [_ HI].
  apply (Matrix_eq_at layout); [apply MultiplyAB_good|done|].
  intros r c Hr Hc.
  destruct (MultiplyAB_good layout M (Identity layout : Matrix N N)) as [_ ->]; [|done..].
  rewrite (dot_ext N _ _ (λ i, Mat_at layout M r i) (λ i, identity_entry i c)).
  - by apply (dot_identity_r N c (λ i, Mat_at layout M r i)).
  - done.
  - intros i Hi. by apply HI.
Qed.
End Laws.

End IdentityProduct.



(** ** The initializer-list constructor *)

Section InitializerList.
Context {Real : Type} `{RealOps Real}.
Variable layout : Layout.
Context {NumRows NumCols : nat}.
Variable values : list Real.

Lemma init_entry_zero r c :
  length values ≤ r * NumCols + c → init_entry values NumCols r c = r0.
Proof. intros Hlen. unfold init_entry. by rewrite lookup_ge_None_2. Qed.

Lemma init_copy_row_spec r n : r < NumRows →
  ∀ c (M : Matrix (Real:=Real) NumRows NumCols) (D : nat → nat → Prop),
  c + n = NumCols → good layout (init_entry values NumCols) M D →
  ∃ c' M',
    init_copy_row layout values r n c (r * NumCols + c) (r * NumCols + c) M
    = (c', r * NumCols + c', r * NumCols + c', M') ∧
    c ≤ c' ≤ NumCols ∧
    good layout (init_entry values NumCols) M' (λ r' c'', D r' c'' ∨ (r' = r ∧ c ≤ c'' < c')) ∧
    (c' < NumCols → length values ≤ r * NumCols + c').
Proof.
  intros Hr. induction n as [|n IH]; intros c M D Hn HM; simpl.
  - exists c, M. split; [done|]. split; [lia|]. split; [|lia].
    eapply good_weaken; [exact HM|]. intros r' c' _ _ [?|[_ ?]]; [done|lia].
  - destruct (Nat.ltb_spec (r * NumCols + c) (length values)) as [Hlt|Hge].
    + destruct (IH (S c) (Mat_set layout M r c (default r0 (values !! (r * NumCols + c))))
                  (λ r' c', D r' c' ∨ (r' = r ∧ c' = c)))
        as (c' & M' & Heq & Hc' & HM' & Hstop).
      * lia.
      * apply good_set; [done|done|lia|done].
      * exists c', M'. rewrite <- Nat.add_succ_r. rewrite Heq.
        split; [done|]. split; [lia|]. split; [|done].
        eapply good_weaken; [exact HM'|]. simpl.
        intros r' c'' _ _ [?|[-> Hc'']]; [tauto|].
        destruct (decide (c'' = c)); [tauto|]. right. lia.
    + exists c, M. split; [done|]. split; [lia|]. split; [|done].
      eapply good_weaken; [exact HM|]. intros r' c' _ _ [?|[_ ?]]; [done|lia].
Qed.

Lemma init_rows_spec n :
  ∀ r (M : Matrix (Real:=Real) NumRows NumCols),
  r + n = NumRows → good layout (init_entry values NumCols) M (λ r' _, r' < r) →
  ∃ r' M',
    init_rows layout values n r (r * NumCols) (r * NumCols) M = (r', M') ∧
    r ≤ r' ≤ NumRows ∧
    good layout (init_entry values NumCols) M' (λ r'' _, r'' < r') ∧
    (r' < NumRows → length values ≤ r' * NumCols).
Proof.
  induction n as [|n IH]; intros r M Hn HM; simpl.
  - exists r, M. split; [done|]. split; [lia|]. split; [done|lia].
  - assert (Hr : r < NumRows) by lia.
    destruct (init_copy_row_spec r NumCols Hr 0 M _ eq_refl HM)
      as (c' & M1 & Heq & Hc' & HM1 & Hstop).
    rewrite Nat.add_0_r in Heq. rewrite Heq.
    destruct (Nat.ltb_spec c' NumCols) as [Hlt|Hge].
    + eexists (S r), _. split; [done|]. split; [lia|]. split; [|nia].
      eapply good_weaken.
      * unfold for_upto.
        apply (good_row_loop layout (init_entry values NumCols) M1 _ r c' (NumCols - c') (λ _, r0) HM1); [done|lia|].
        intros c Hc. symmetry. apply init_entry_zero. specialize (Hstop Hlt). lia.
      * simpl. intros r' c Hr' Hc Hlt'.
        destruct (decide (r' = r)) as [->|]; [|left; left; lia].
        destruct (decide (c < c')); [left; right; lia|right; lia].
    + assert (c' = NumCols) as -> by lia.
      replace (r * NumCols + NumCols) with (S r * NumCols) by lia.
      destruct (IH (S r) M1) as (r' & M' & Heq' & Hr' & HM' & Hstop').
      * lia.
      * eapply good_weaken; [exact HM1|]. simpl. intros r' c Hr' Hc Hlt'.
        destruct (decide (r' = r)) as [->|]; [right; lia|left; lia].
      * exists r', M'. split; [done|]. split; [lia|]. done.
Qed.

Lemma Matrix_init_good :
  good layout (init_entry values NumCols) (Matrix_init layout values : Matrix NumRows NumCols) (λ _ _, True).
Proof.
  unfold Matrix_init. rewrite Table_ctor_Zero.
  destruct (init_rows_spec NumRows 0 (Zero layout)) as (r' & M' & Heq & Hr' & HM' & Hstop).
  { done. }
  { split; [apply wf_Zero|]. intros r c _ _ ?. lia. }
  simpl in Heq. rewrite Heq.
  destruct (Nat.ltb_spec r' NumRows) as [Hlt|Hge].
  - eapply good_weaken.
    + apply (for_upto_ind (λ j M, good layout (init_entry values NumCols) M (λ r'' _, r'' < j))); [lia|exact HM'|].
      intros j M Hj HM. eapply good_weaken.
      * apply (good_row_loop layout (init_entry values NumCols) M _ j 0 NumCols (λ _, r0) HM); [lia|lia|].
        intros c Hc. symmetry. apply init_entry_zero. specialize (Hstop Hlt). nia.
      * simpl. intros r c _ Hc Hr.
        destruct (decide (r = j)) as [->|]; [right; lia|left; lia].
    + simpl. intros r c Hr _ _. done.
  - eapply good_weaken; [exact HM'|]. simpl. intros r c Hr _ _. lia.
Qed.
End InitializerList.

(** C4. The initializer-list constructor copies the values in row-major
    order: element [(r, c)] is value number [r * NumCols + c] when the list
    has one and zero otherwise, whatever the layout; values beyond the first
    [NumRows * NumCols] do not matter; and a 2-by-3 matrix built from two
    values [a, b] has the rows [a, b, 0] and [0, 0, 0]. *)
Theorem Matrix_init_row_major {Real : Type} `{RealOps Real} (layout : Layout)
    {NumRows NumCols : nat} (values : list Real) :
  wf (Matrix_init layout values : Matrix NumRows NumCols) ∧
  (∀ r c, r < NumRows → c < NumCols →
     Mat_at layout (Matrix_init layout values : Matrix NumRows NumCols) r c
     = if r * NumCols + c <? length values
       then default r0 (values !! (r * NumCols + c))
       else r0) ∧
  (Matrix_init layout values : Matrix NumRows NumCols)
  = Matrix_init layout (take (NumRows * NumCols) values) ∧
  (∀ a b : Real,
     rows_of layout (Matrix_init layout [a; b] : Matrix 2 3) = [[a; b; r0]; [r0; r0; r0]]).
Proof.
  destruct (Matrix_init_good layout (NumRows:=NumRows) (NumCols:=NumCols) values) as [Hwf Hat].
  split; [done|]. split; [|split].
  - intros r c Hr Hc. rewrite Hat by done. unfold init_entry.
    destruct (Nat.ltb_spec (r * NumCols + c) (length values)); [done|].
    by rewrite lookup_ge_None_2.
  - apply (Matrix_eq_at layout); [done|apply Matrix_init_good|].
    intros r c Hr Hc. rewrite Hat by done.
    destruct (Matrix_init_good layout (NumRows:=NumRows) (NumCols:=NumCols)
                (take (NumRows * NumCols) values)) as [_ ->]; [|done..].
    unfold init_entry. rewrite lookup_take_lt by nia. done.
  - intros a b. by destruct layout.
Qed.

Lemma Matrix_init_row_major_witness :
  Mat_at ColMajor (Matrix_init ColMajor [1; 2; 3; 4; 5; 6; 7; 8]%Z : Matrix 2 3) 1 1 = 5%Z ∧
  Mat_at ColMajor (Matrix_init ColMajor [1; 2; 3; 4]%Z : Matrix 2 3) 1 1 = 0%Z.
Proof.
  split.
  - assert (H1 : 1 < 2) by lia. assert (H2 : 1 < 3) by lia.
    exact (proj1 (proj2 (Matrix_init_row_major ColMajor (NumRows:=2) (NumCols:=3)
             [1; 2; 3; 4; 5; 6; 7; 8]%Z)) 1 1 H1 H2).
  - assert (H1 : 1 < 2) by lia. assert (H2 : 1 < 3) by lia.
    exact (proj1 (proj2 (Matrix_init_row_major ColMajor (NumRows:=2) (NumCols:=3)
             [1; 2; 3; 4]%Z)) 1 1 H1 H2).
Defined.

(** * Further properties of Matrix.h *)

(** ** Construction and element access *)

Section AccessFacts.
Context {Real : Type} `{RealOps Real}.
Variable layout : Layout.
Context {NumRows NumCols : nat}.
Implicit Types (M : Matrix (Real:=Real) NumRows NumCols).

(** X1. Every way of clearing a matrix gives the same all-zero block: the
    default constructor, [Zero()], and [MakeZero()] on any matrix; all its
    elements are zero through either accessor. *)
Theorem MakeZero_all_zero M :
  wf M →
  MakeZero M = Zero layout ∧
  (Matrix_ctor layout : Matrix NumRows NumCols) = Zero layout ∧
  Mat_data (Zero layout : Matrix NumRows NumCols) = replicate (NumRows * NumCols) r0 ∧
  (∀ r c, Mat_at layout (MakeZero M) r c = r0) ∧
  (∀ i, Mat_idx (MakeZero M) i = r0).
Proof.
  intros Hwf. rewrite (MakeZero_Zero layout) by done.
  split; [done|]. split; [apply Matrix_ctor_Zero|]. split; [|split].
  - unfold Mat_data. by rewrite Zero_data.
  - intros r c. apply Mat_at_Zero.
  - intros i. rewrite Mat_idx_data, Zero_data. simpl.
    destruct (replicate _ _ !! _) as [x|] eqn:Hx; [|done].
    apply lookup_replicate_1 in Hx as [-> _]. done.
Qed.

(** X4. Writing through [M(r, c)] and reading back: the written element holds
    the value, every other element keeps its value, writing an element's own
    value changes nothing, and a second write to the same element replaces
    the first. *)
Theorem Mat_set_then_at M r c v :
  wf M → r < NumRows → c < NumCols →
  wf (Mat_set layout M r c v) ∧
  Mat_at layout (Mat_set layout M r c v) r c = v ∧
  (∀ r' c', r' < NumRows → c' < NumCols → ¬ (r' = r ∧ c' = c) →
     Mat_at layout (Mat_set layout M r c v) r' c' = Mat_at layout M r' c') ∧
  Mat_set layout M r c (Mat_at layout M r c) = M ∧
  (∀ v', Mat_set layout (Mat_set layout M r c v') r c v = Mat_set layout M r c v).
Proof.
  intros Hwf Hr Hc. split; [by apply wf_set|]. split; [by apply Mat_at_set_eq|].
  split; [|split].
  - intros r' c' Hr' Hc' Hne. by apply Mat_at_set_ne.
  - apply Matrix_eq. rewrite Mat_set_slot, Mat_at_slot. simpl.
    apply list_insert_id'. intros Hlt.
    destruct (lookup_lt_is_Some_2 _ _ Hlt) as [x ->]. done.
  - intros v'. rewrite !Mat_set_slot. simpl. by rewrite list_insert_insert_eq.
Qed.

(** X5. The linear index and the coordinates name the same elements: index [i]
    is the element [(row_of i, col_of i)], coordinates [(r, c)] are index
    [slot r c], and the two maps are inverse to each other on valid
    arguments.  In a row-major build [i] is [(i / NumCols, i mod NumCols)];
    in a column-major build it is [(i mod NumRows, i / NumRows)]. *)
Theorem linear_index_coordinates M :
  (∀ i, i < NumRows * NumCols →
     row_of layout NumRows NumCols i < NumRows ∧
     col_of layout NumRows NumCols i < NumCols ∧
     slot layout NumRows NumCols
       (row_of layout NumRows NumCols i) (col_of layout NumRows NumCols i) = i ∧
     Mat_idx M i
     = Mat_at layout M (row_of layout NumRows NumCols i) (col_of layout NumRows NumCols i)) ∧
  (∀ r c, r < NumRows → c < NumCols →
     slot layout NumRows NumCols r c < NumRows * NumCols ∧
     row_of layout NumRows NumCols (slot layout NumRows NumCols r c) = r ∧
     col_of layout NumRows NumCols (slot layout NumRows NumCols r c) = c ∧
     Mat_idx M (slot layout NumRows NumCols r c) = Mat_at layout M r c ∧
     ∀ v, Mat_set_idx M (slot layout NumRows NumCols r c) v = Mat_set layout M r c v).
Proof.
  split.
  - intros i Hi.
    assert (Hs : slot layout NumRows NumCols
       (row_of layout NumRows NumCols i) (col_of layout NumRows NumCols i) = i).
    { unfold slot, row_of, col_of. destruct layout.
      - pose proof (Nat.div_mod_eq i NumCols). lia.
      - pose proof (Nat.div_mod_eq i NumRows). lia. }
    split; [|split; [|split; [done|]]].
    + unfold row_of. destruct layout.
      * apply Nat.Div0.div_lt_upper_bound. lia.
      * apply Nat.mod_upper_bound. nia.
    + unfold col_of. destruct layout.
      * apply Nat.mod_upper_bound. nia.
      * apply Nat.Div0.div_lt_upper_bound. lia.
    + rewrite Mat_at_slot, Hs. done.
  - intros r c Hr Hc. split; [by apply slot_lt|].
    split; [|split; [|split]].
    + unfold slot, row_of. destruct layout.
      * rewrite Nat.add_comm, Nat.div_add by lia. rewrite Nat.div_small by done. done.
      * rewrite Nat.add_comm, Nat.Div0.mod_add. by apply Nat.mod_small.
    + unfold slot, col_of. destruct layout.
      * rewrite Nat.add_comm, Nat.Div0.mod_add. by apply Nat.mod_small.
      * rewrite Nat.add_comm, Nat.div_add by lia. rewrite Nat.div_small by done. done.
    + by rewrite Mat_at_slot.
    + intros v. by rewrite Mat_set_slot.
Qed.

(** X2. The array constructor round-trips: the element [(r, c)] of the matrix
    built from [values] is [values[r * NumCols + c]], in either layout. *)
Theorem Matrix_array_round_trip (values : list Real) :
  wf (Matrix_array layout values : Matrix NumRows NumCols) ∧
  ∀ r c, r < NumRows → c < NumCols →
    Mat_at layout (Matrix_array layout values : Matrix NumRows NumCols) r c
    = default r0 (values !! (r * NumCols + c)).
Proof.
  destruct (Matrix_array_good layout (NumRows:=NumRows) (NumCols:=NumCols) values)
    as [Hwf Hat].
  split; [done|]. intros r c Hr Hc. by apply Hat.
Qed.

(** X6. [MakeIdentity] on a matrix of any shape, square or not: ones on the
    diagonal [(i, i)], zero elsewhere, whatever the matrix held before. *)
Theorem MakeIdentity_diagonal M :
  wf M →
  MakeIdentity layout M = Identity layout ∧
  wf (Identity layout : Matrix NumRows NumCols) ∧
  ∀ r c, r < NumRows → c < NumCols →
    Mat_at layout (Identity layout : Matrix NumRows NumCols) r c
    = if decide (r = c) then r1 else r0.
Proof.
  intros Hwf. destruct (Identity_good layout (NumRows:=NumRows) (NumCols:=NumCols))
    as [HwfI HatI].
  split; [|split; [done|]].
  - apply (good_eq layout identity_entry); [by apply MakeIdentity_good|done].
  - intros r c Hr Hc. by apply HatI.
Qed.
End AccessFacts.

Lemma MakeZero_all_zero_witness :
  MakeZero (M_2x3 ColMajor) = Zero ColMajor.
Proof.
  assert (Hwf : wf (M_2x3 ColMajor)) by reflexivity.
  exact (proj1 (MakeZero_all_zero ColMajor (M_2x3 ColMajor) Hwf)).
Defined.

Lemma Mat_set_then_at_witness :
  Mat_at ColMajor (Mat_set ColMajor (M_2x3 ColMajor) 1 2 9%Z) 1 2 = 9%Z.
Proof.
  assert (Hwf : wf (M_2x3 ColMajor)) by reflexivity.
  assert (H1 : 1 < 2) by lia. assert (H2 : 2 < 3) by lia.
  exact (proj1 (proj2 (Mat_set_then_at ColMajor (M_2x3 ColMajor) 1 2 9%Z Hwf H1 H2))).
Defined.

Lemma linear_index_coordinates_witness :
  Mat_idx (M_2x3 ColMajor) 3 = Mat_at ColMajor (M_2x3 ColMajor) 1 1.
Proof.
  assert (H3 : 3 < 2 * 3) by lia.
  exact (proj2 (proj2 (proj2 (proj1 (linear_index_coordinates ColMajor (M_2x3 ColMajor)) 3 H3)))).
Defined.

Lemma Matrix_array_round_trip_witness :
  Mat_at ColMajor (M_2x3 ColMajor) 1 0 = 4%Z.
Proof.
  assert (H1 : 1 < 2) by lia. assert (H0 : 0 < 3) by lia.
  exact (proj2 (Matrix_array_round_trip ColMajor (NumRows:=2) (NumCols:=3)
           [1; 2; 3; 4; 5; 6]%Z) 1 0 H1 H0).
Defined.

Lemma MakeIdentity_diagonal_witness :
  MakeIdentity ColMajor (M_2x3 ColMajor) = Identity ColMajor ∧
  rows_of ColMajor (Identity ColMajor : Matrix (Real:=Z) 2 3) = [[1; 0; 0]; [0; 1; 0]]%Z.
Proof.
  split.
  - assert (Hwf : wf (M_2x3 ColMajor)) by reflexivity.
    exact (proj1 (MakeIdentity_diagonal ColMajor (M_2x3 ColMajor) Hwf)).
  - reflexivity.
Defined.

(** X3. The physical block of the array constructor: in a row-major build it is
    the list of values itself; in a column-major build the value
    [values[r * NumCols + c]] sits at position [c * NumRows + r]. *)
Theorem Matrix_array_storage {Real : Type} `{RealOps Real} {NumRows NumCols : nat}
    (values : list Real) :
  length values = NumRows * NumCols →
  Mat_data (Matrix_array RowMajor values : Matrix NumRows NumCols) = values ∧
  ∀ r c, r < NumRows → c < NumCols →
    Mat_data (Matrix_array ColMajor values : Matrix NumRows NumCols) !! (c * NumRows + r)
    = values !! (r * NumCols + c).
Proof.
  intros Hlen.
  destruct (Matrix_array_good RowMajor (NumRows:=NumRows) (NumCols:=NumCols) values)
    as [HwfR HatR].
  destruct (Matrix_array_good ColMajor (NumRows:=NumRows) (NumCols:=NumCols) values)
    as [HwfC HatC].
  split.
  - unfold Mat_data. apply list_eq_same_length with (NumRows * NumCols); [done..|].
    intros i x y Hi Hx Hy.
    destruct (slot_surj RowMajor (NumRows:=NumRows) (NumCols:=NumCols) i Hi)
      as (r & c & Hr & Hc & Hs).
    specialize (HatR r c Hr Hc I). rewrite Mat_at_slot, Hs, Hx in HatR.
    unfold slot in Hs. rewrite Hs, Hy in HatR. done.
  - intros r c Hr Hc. specialize (HatC r c Hr Hc I).
    rewrite Mat_at_slot in HatC. unfold slot in HatC. unfold Mat_data.
    destruct (lookup_lt_is_Some_2 (mStorage (mTable (Matrix_array ColMajor values
                : Matrix NumRows NumCols))) (c * NumRows + r)) as [x Hx].
    { rewrite HwfC. nia. }
    destruct (lookup_lt_is_Some_2 values (r * NumCols + c)) as [y Hy].
    { rewrite Hlen. nia. }
    rewrite Hx, Hy in *. simpl in HatC. by rewrite HatC.
Qed.

Lemma Matrix_array_storage_witness :
  Mat_data (M_2x3 RowMajor) = [1; 2; 3; 4; 5; 6]%Z ∧
  Mat_data (M_2x3 ColMajor) !! (2 * 2 + 1) = Some 6%Z.
Proof.
  assert (Hlen : length [1; 2; 3; 4; 5; 6]%Z = 2 * 3) by reflexivity.
  assert (H1 : 1 < 2) by lia. assert (H2 : 2 < 3) by lia.
  split.
  - exact (proj1 (Matrix_array_storage (NumRows:=2) (NumCols:=3) _ Hlen)).
  - exact (proj2 (Matrix_array_storage (NumRows:=2) (NumCols:=3) _ Hlen) 1 2 H1 H2).
Defined.

(** ** Rows and columns *)

Section VectorFacts.
Context {Real : Type} `{RealOps Real}.

Lemma Vector_eq {N : nat} (V V' : Vector (Real:=Real) N) : mTuple V = mTuple V' → V = V'.
Proof. destruct V as [l], V' as [l']. simpl. by intros ->. Qed.

Lemma map_seq_ext {B : Type} (f g : nat → B) lo n :
  (∀ i, lo ≤ i < lo + n → f i = g i) → map f (seq lo n) = map g (seq lo n).
Proof.
  revert lo. induction n as [|n IH]; intros lo Hfg; simpl; [done|].
  rewrite Hfg by lia. f_equal. apply IH. intros i Hi. apply Hfg. lia.
Qed.

(** [for (i = 0; i < N; ++i) vec[i] = f i] *)
Lemma vec_fill_app {N : nat} (f : nat → Real) (l1 l2 : list Real) :
  for_range (length l1) (length l2) (λ i (v : Vector N), Vec_set v i (f i))
    (mkVector (l1 ++ l2))
  = mkVector (l1 ++ map f (seq (length l1) (length l2))).
Proof.
  revert l1. induction l2 as [|x l2 IH]; intros l1; simpl; [done|].
  unfold Vec_set at 2. simpl.
  rewrite insert_app_r_alt by lia. rewrite Nat.sub_diag. simpl.
  specialize (IH (l1 ++ [f (length l1)])). rewrite length_app, Nat.add_1_r in IH.
  rewrite <- !app_assoc in IH. exact IH.
Qed.

Lemma vec_fill {N : nat} (f : nat → Real) :
  for_range 0 N (λ i (v : Vector N), Vec_set v i (f i)) Vector_ctor
  = mkVector (map f (seq 0 N)).
Proof.
  pose proof (vec_fill_app (N:=N) f [] (replicate N r0)) as Hfill.
  rewrite length_replicate in Hfill. exact Hfill.
Qed.

Lemma Vec_at_fill {N : nat} (f : nat → Real) i :
  i < N → Vec_at (mkVector (N:=N) (map f (seq 0 N))) i = f i.
Proof.
  intros Hi. unfold Vec_at. simpl. change (map f ?l) with (f <$> l).
  rewrite list_lookup_fmap, lookup_seq_lt by done. done.
Qed.

Lemma Vec_fill_self {N : nat} (V : Vector (Real:=Real) N) :
  wfV V → mkVector (map (Vec_at V) (seq 0 N)) = V.
Proof.
  intros Hwf. apply Vector_eq. simpl.
  apply list_eq_same_length with N; [done|by rewrite length_map, length_seq|].
  intros i x y Hi Hx Hy. change (map ?f ?l) with (f <$> l) in Hx.
  rewrite list_lookup_fmap, lookup_seq_lt in Hx by done. simpl in Hx.
  unfold Vec_at in Hx. rewrite Hy in Hx. simpl in Hx. congruence.
Qed.
End VectorFacts.

Section RowColFacts.
Context {Real : Type} `{RealOps Real}.
Variable layout : Layout.
Context {NumRows NumCols : nat}.
Implicit Types (M : Matrix (Real:=Real) NumRows NumCols).

Lemma GetRow_data r M :
  GetRow layout r M = mkVector (map (λ c, Mat_at layout M r c) (seq 0 NumCols)).
Proof. apply vec_fill. Qed.

Lemma GetCol_data c M :
  GetCol layout c M = mkVector (map (λ r, Mat_at layout M r c) (seq 0 NumRows)).
Proof. apply vec_fill. Qed.

Lemma SetRow_good r (vec : Vector NumCols) M :
  wf M → r < NumRows →
  good layout (λ r' c', if decide (r' = r) then Vec_at vec c' else Mat_at layout M r' c')
    (SetRow layout r vec M) (λ _ _, True).
Proof.
  intros Hwf Hr. unfold SetRow. eapply good_weaken.
  - apply (good_row_loop layout _ M (λ r' _, r' ≠ r) r 0 NumCols (Vec_at vec)); [|done|lia|].
    + split; [done|]. intros r' c' _ _ Hne. by rewrite decide_False.
    + intros c _. by rewrite decide_True.
  - simpl. intros r' c' _ Hc' _. destruct (decide (r' = r)); [right; lia|by left].
Qed.

Lemma SetCol_good c (vec : Vector NumRows) M :
  wf M → c < NumCols →
  good layout (λ r' c', if decide (c' = c) then Vec_at vec r' else Mat_at layout M r' c')
    (SetCol layout c vec M) (λ _ _, True).
Proof.
  intros Hwf Hc. unfold SetCol. eapply good_weaken.
  - apply (good_col_loop layout _ M (λ _ c', c' ≠ c) c 0 NumRows (Vec_at vec)); [|done|lia|].
    + split; [done|]. intros r' c' _ _ Hne. by rewrite decide_False.
    + intros r _. by rewrite decide_True.
  - simpl. intros r' c' Hr' _ _. destruct (decide (c' = c)); [right; lia|by left].
Qed.

(** X7. [SetRow] and [GetRow] round-trip: after [SetRow(r, vec)] row [r] reads
    back as [vec] and every other row is unchanged, and storing the row a
    matrix already has leaves the matrix as it was. *)
Theorem SetRow_GetRow r (vec : Vector NumCols) M :
  wf M → r < NumRows → wfV vec →
  wf (SetRow layout r vec M) ∧
  GetRow layout r (SetRow layout r vec M) = vec ∧
  (∀ r', r' < NumRows → r' ≠ r →
     GetRow layout r' (SetRow layout r vec M) = GetRow layout r' M) ∧
  SetRow layout r (GetRow layout r M) M = M.
Proof.
  intros Hwf Hr HV. destruct (SetRow_good r vec M Hwf Hr) as [HwfS HatS].
  split; [done|]. split; [|split].
  - rewrite GetRow_data. etrans; [|apply (Vec_fill_self vec HV)]. f_equal.
    apply map_seq_ext. intros c Hc. rewrite HatS by (done || lia).
    by rewrite decide_True.
  - intros r' Hr' Hne. rewrite !GetRow_data. f_equal.
    apply map_seq_ext. intros c Hc. rewrite HatS by (done || lia).
    by rewrite decide_False.
  - apply (Matrix_eq_at layout); [by apply SetRow_good|done|].
    intros r' c' Hr' Hc'.
    destruct (SetRow_good r (GetRow layout r M) M Hwf Hr) as [_ ->]; [|done..].
    destruct (decide (r' = r)) as [->|]; [|done].
    rewrite GetRow_data. by apply (Vec_at_fill (λ c, Mat_at layout M r c)).
Qed.

(** X8. [SetCol] and [GetCol] round-trip in the same way. *)
Theorem SetCol_GetCol c (vec : Vector NumRows) M :
  wf M → c < NumCols → wfV vec →
  wf (SetCol layout c vec M) ∧
  GetCol layout c (SetCol layout c vec M) = vec ∧
  (∀ c', c' < NumCols → c' ≠ c →
     GetCol layout c' (SetCol layout c vec M) = GetCol layout c' M) ∧
  SetCol layout c (GetCol layout c M) M = M.
Proof.
  intros Hwf Hc HV. destruct (SetCol_good c vec M Hwf Hc) as [HwfS HatS].
  split; [done|]. split; [|split].
  - rewrite GetCol_data. etrans; [|apply (Vec_fill_self vec HV)]. f_equal.
    apply map_seq_ext. intros r Hr. rewrite HatS by (done || lia).
    by rewrite decide_True.
  - intros c' Hc' Hne. rewrite !GetCol_data. f_equal.
    apply map_seq_ext. intros r Hr. rewrite HatS by (done || lia).
    by rewrite decide_False.
  - apply (Matrix_eq_at layout); [by apply SetCol_good|done|].
    intros r' c' Hr' Hc'.
    destruct (SetCol_good c (GetCol layout c M) M Hwf Hc) as [_ ->]; [|done..].
    destruct (decide (c' = c)) as [->|]; [|done].
    rewrite GetCol_data. by apply (Vec_at_fill (λ r, Mat_at layout M r c)).
Qed.

End RowColFacts.

(** X9. The rows of the transpose are the columns of the matrix, and its
    columns are the rows. *)
Theorem Transpose_rows_cols {Real : Type} `{RealOps Real} (layout : Layout)
    {NumRows NumCols : nat} (M : Matrix (Real:=Real) NumRows NumCols) :
  (∀ c, c < NumCols → GetRow layout c (Transpose layout M) = GetCol layout c M) ∧
  (∀ r, r < NumRows → GetCol layout r (Transpose layout M) = GetRow layout r M).
Proof.
  split.
  - intros c Hc. rewrite GetRow_data, GetCol_data. f_equal.
    apply map_seq_ext. intros r Hr. apply Mat_at_Transpose; lia.
  - intros r Hr. rewrite GetRow_data, GetCol_data. f_equal.
    apply map_seq_ext. intros c Hc. apply Mat_at_Transpose; lia.
Qed.

Lemma SetRow_GetRow_witness :
  GetRow ColMajor 1 (SetRow ColMajor 1 V_3 (M_2x3 ColMajor)) = V_3.
Proof.
  assert (Hwf : wf (M_2x3 ColMajor)) by reflexivity.
  assert (H1 : 1 < 2) by lia. assert (HV : wfV V_3) by reflexivity.
  exact (proj1 (proj2 (SetRow_GetRow ColMajor 1 V_3 (M_2x3 ColMajor) Hwf H1 HV))).
Defined.

Lemma SetCol_GetCol_witness :
  GetCol RowMajor 2 (SetCol RowMajor 2 V_2 (M_2x3 RowMajor)) = V_2.
Proof.
  assert (Hwf : wf (M_2x3 RowMajor)) by reflexivity.
  assert (H2 : 2 < 3) by lia. assert (HV : wfV V_2) by reflexivity.
  exact (proj1 (proj2 (SetCol_GetCol RowMajor 2 V_2 (M_2x3 RowMajor) Hwf H2 HV))).
Defined.

Lemma Transpose_rows_cols_witness :
  GetRow ColMajor 2 (Transpose ColMajor (M_2x3 ColMajor)) = GetCol ColMajor 2 (M_2x3 ColMajor).
Proof.
  assert (H2 : 2 < 3) by lia.
  exact (proj1 (Transpose_rows_cols ColMajor (M_2x3 ColMajor)) 2 H2).
Defined.

(** ** Element-wise arithmetic *)

Section ArithmeticFacts.
Context {Real : Type} `{RealOps Real} `{!RealOpsExt Real}.
Variable layout : Layout.
Context {NumRows NumCols : nat}.
Implicit Types (M : Matrix (Real:=Real) NumRows NumCols).

(** [for (i = 0; i < n; ++i) M[i] = f i M[i]] *)
Lemma idx_loop_indexed_app (f : nat → Real → Real) (l1 l2 : list Real) :
  for_range (length l1) (length l2)
    (λ i (M : Matrix NumRows NumCols), Mat_set_idx M i (f i (Mat_idx M i)))
    (mkMatrix (mkTable (l1 ++ l2)))
  = mkMatrix (mkTable (l1 ++ imap (λ j, f (length l1 + j)) l2)).
Proof.
  revert l1. induction l2 as [|x l2 IH]; intros l1; simpl; [done|].
  unfold Mat_set_idx at 2, Table_set_idx, Mat_idx at 2, Table_idx. simpl.
  rewrite list_lookup_middle by done. simpl.
  rewrite insert_app_r_alt by lia. rewrite Nat.sub_diag. simpl.
  specialize (IH (l1 ++ [f (length l1) x])). rewrite length_app, Nat.add_1_r in IH.
  rewrite <- !app_assoc in IH. simpl in IH. rewrite IH. do 3 f_equal.
  rewrite Nat.add_0_r. f_equal.
  apply imap_ext. intros j y _. simpl. f_equal. lia.
Qed.

Lemma idx_loop_indexed (f : nat → Real → Real) M :
  wf M →
  for_range 0 (NumRows * NumCols) (λ i M, Mat_set_idx M i (f i (Mat_idx M i))) M
  = mkMatrix (mkTable (imap f (mStorage (mTable M)))).
Proof.
  intros Hwf. destruct M as [[l]]. unfold wf in Hwf. simpl in *.
  rewrite <- Hwf. apply (idx_loop_indexed_app f [] l).
Qed.

Lemma Mat_at_imap (f : nat → Real → Real) M r c :
  wf M → r < NumRows → c < NumCols →
  Mat_at layout (mkMatrix (mkTable (imap f (mStorage (mTable M)))) : Matrix NumRows NumCols) r c
  = f (slot layout NumRows NumCols r c) (Mat_at layout M r c).
Proof.
  intros Hwf Hr Hc. rewrite !Mat_at_slot. simpl. rewrite list_lookup_imap.
  destruct (lookup_lt_is_Some_2 (mStorage (mTable M)) (slot layout NumRows NumCols r c))
    as [x ->]; [|done].
  rewrite Hwf. by apply slot_lt.
Qed.

Lemma wf_imap (f : nat → Real → Real) M :
  wf M → wf (mkMatrix (mkTable (imap f (mStorage (mTable M)))) : Matrix NumRows NumCols).
Proof. unfold wf. simpl. by rewrite length_imap. Qed.

(** X10. [M0 + M1] and [M0 - M1] run over the linear index, yet combine the
    elements coordinate by coordinate in either layout. *)
Theorem op_add_sub_elementwise M0 M1 :
  wf M0 → wf M1 →
  wf (op_add M0 M1) ∧ wf (op_sub M0 M1) ∧
  ∀ r c, r < NumRows → c < NumCols →
    Mat_at layout (op_add M0 M1) r c = radd (Mat_at layout M0 r c) (Mat_at layout M1 r c) ∧
    Mat_at layout (op_sub M0 M1) r c = rsub (Mat_at layout M0 r c) (Mat_at layout M1 r c).
Proof.
  intros Hwf0 Hwf1. unfold op_add, op_sub, op_add_assign, op_sub_assign.
  rewrite (idx_loop_indexed (λ i x, radd x (Mat_idx M1 i)) M0 Hwf0).
  rewrite (idx_loop_indexed (λ i x, rsub x (Mat_idx M1 i)) M0 Hwf0).
  split; [by apply wf_imap|]. split; [by apply wf_imap|].
  intros r c Hr Hc. rewrite !Mat_at_imap by done.
  by rewrite Mat_idx_data, <- Mat_at_slot.
Qed.

(** X11. [M * s] and [s * M] are the same matrix: both multiply every element
    by the scalar on the right. *)
Theorem op_mul_scalar_elementwise M (s : Real) :
  wf M →
  wf (op_mul_scalar M s) ∧
  op_scalar_mul s M = op_mul_scalar M s ∧
  ∀ r c, r < NumRows → c < NumCols →
    Mat_at layout (op_mul_scalar M s) r c = rmul (Mat_at layout M r c) s.
Proof.
  intros Hwf. unfold op_scalar_mul, op_mul_scalar, op_mul_assign.
  rewrite (idx_loop_indexed (λ _ x, rmul x s) M Hwf).
  split; [by apply wf_imap|]. split; [done|].
  intros r c Hr Hc. by rewrite Mat_at_imap.
Qed.

Lemma op_neg_data M :
  op_neg layout M
  = mkMatrix (mkTable (imap (λ i _, rneg (Mat_idx M i)) (replicate (NumRows * NumCols) r0))).
Proof.
  unfold op_neg. rewrite Matrix_ctor_data.
  apply (idx_loop_indexed (λ i _, rneg (Mat_idx M i))), wf_replicate.
Qed.

(** X12. [-M] negates every element, coordinate by coordinate, and negating
    twice gives back the matrix when [-(-x) = x] for the elements. *)
Theorem op_neg_elementwise M :
  wf (op_neg layout M) ∧
  (∀ r c, r < NumRows → c < NumCols →
     Mat_at layout (op_neg layout M) r c = rneg (Mat_at layout M r c)) ∧
  ((∀ x : Real, rneg (rneg x) = x) → wf M → op_neg layout (op_neg layout M) = M).
Proof.
  assert (Hat : ∀ M r c, r < NumRows → c < NumCols →
            Mat_at layout (op_neg layout M) r c = rneg (Mat_at layout M r c)).
  { intros M' r c Hr Hc. rewrite op_neg_data, (Mat_at_slot layout _ r c). simpl.
    rewrite list_lookup_imap, lookup_replicate_2 by (by apply slot_lt). simpl.
    by rewrite Mat_idx_data, <- Mat_at_slot. }
  assert (Hwf : ∀ M, wf (op_neg layout M)).
  { intros M'. rewrite op_neg_data. unfold wf. simpl.
    by rewrite length_imap, length_replicate. }
  split; [done|]. split; [by apply Hat|].
  intros Hinv HwfM. apply (Matrix_eq_at layout); [done..|].
  intros r c Hr Hc. by rewrite !Hat, Hinv.
Qed.

(** X13. Matrix addition inherits the laws of the element addition:
    commutative and associative when that is, with the zero matrix as right
    unit when [x + 0 = x]. *)
Theorem op_add_laws M0 M1 M2 :
  wf M0 → wf M1 → wf M2 →
  ((∀ x y : Real, radd x y = radd y x) → op_add M0 M1 = op_add M1 M0) ∧
  ((∀ x y z : Real, radd (radd x y) z = radd x (radd y z)) →
     op_add (op_add M0 M1) M2 = op_add M0 (op_add M1 M2)) ∧
  ((∀ x : Real, radd x r0 = x) → op_add M0 (Zero layout) = M0).
Proof.
  intros Hwf0 Hwf1 Hwf2.
  assert (Hadd : ∀ A B : Matrix (Real:=Real) NumRows NumCols, wf A → wf B →
            wf (op_add A B) ∧
            ∀ r c, r < NumRows → c < NumCols →
              Mat_at layout (op_add A B) r c = radd (Mat_at layout A r c) (Mat_at layout B r c)).
  { intros A B HA HB. unfold op_add, op_add_assign.
    rewrite (idx_loop_indexed (λ i x, radd x (Mat_idx B i)) A HA).
    split; [by apply wf_imap|]. intros r c Hr Hc.
    rewrite Mat_at_imap by done. by rewrite Mat_idx_data, <- Mat_at_slot. }
  split; [|split].
  - intros Hcomm. apply (Matrix_eq_at layout); [by apply Hadd..|].
    intros r c Hr Hc.
    rewrite (proj2 (Hadd M0 M1 Hwf0 Hwf1)), (proj2 (Hadd M1 M0 Hwf1 Hwf0)) by done.
    apply Hcomm.
  - intros Hassoc.
    destruct (Hadd M0 M1 Hwf0 Hwf1) as [Hwf01 Hat01].
    destruct (Hadd M1 M2 Hwf1 Hwf2) as [Hwf12 Hat12].
    apply (Matrix_eq_at layout); [by apply Hadd..|].
    intros r c Hr Hc.
    rewrite (proj2 (Hadd _ M2 Hwf01 Hwf2)), (proj2 (Hadd M0 _ Hwf0 Hwf12)) by done.
    rewrite Hat01, Hat12 by done. apply Hassoc.
  - intros Hzero. apply (Matrix_eq_at layout); [by apply Hadd, wf_Zero|done|].
    intros r c Hr Hc.
    rewrite (proj2 (Hadd M0 (Zero layout) Hwf0 (wf_Zero layout))) by done.
    by rewrite Mat_at_Zero.
Qed.
End ArithmeticFacts.

Lemma op_add_sub_elementwise_witness :
  Mat_at ColMajor (op_add (M_2x3 ColMajor) (M_2x3 ColMajor)) 1 2 = 12%Z.
Proof.
  assert (Hwf : wf (M_2x3 ColMajor)) by reflexivity.
  assert (H1 : 1 < 2) by lia. assert (H2 : 2 < 3) by lia.
  exact (proj1 (proj2 (proj2 (op_add_sub_elementwise ColMajor
           (M_2x3 ColMajor) (M_2x3 ColMajor) Hwf Hwf)) 1 2 H1 H2)).
Defined.

Lemma op_mul_scalar_elementwise_witness :
  op_scalar_mul 3%Z (M_2x3 ColMajor) = op_mul_scalar (M_2x3 ColMajor) 3%Z.
Proof.
  assert (Hwf : wf (M_2x3 ColMajor)) by reflexivity.
  exact (proj1 (proj2 (op_mul_scalar_elementwise ColMajor (M_2x3 ColMajor) 3%Z Hwf))).
Defined.

Lemma op_neg_elementwise_witness :
  op_neg ColMajor (op_neg ColMajor (M_2x3 ColMajor)) = M_2x3 ColMajor.
Proof.
  assert (Hwf : wf (M_2x3 ColMajor)) by reflexivity.
  exact (proj2 (proj2 (op_neg_elementwise ColMajor (M_2x3 ColMajor)))
           (λ x, Z.opp_involutive x) Hwf).
Defined.

Lemma op_add_laws_witness :
  op_add (M_2x3 ColMajor) (Zero ColMajor) = M_2x3 ColMajor.
Proof.
  assert (Hwf : wf (M_2x3 ColMajor)) by reflexivity.
  exact (proj2 (proj2 (op_add_laws ColMajor (M_2x3 ColMajor) (M_2x3 ColMajor)
           (M_2x3 ColMajor) Hwf Hwf Hwf)) (λ x, Z.add_0_r x)).
Defined.

(** ** Comparisons *)

Section ArrayComparisons.
Context {A : Type}.
Implicit Types (a b : list A).

Lemma array_equal_app (eq : A → A → bool) a1 a2 b1 b2 :
  length a1 = length b1 →
  array_equal eq (a1 ++ a2) (b1 ++ b2)
  = array_equal eq a1 b1 && array_equal eq a2 b2.
Proof.
  revert b1. induction a1 as [|x a1 IH]; intros [|y b1] Hlen; simpl in *; try done.
  destruct (eq x y); [|done]. apply IH. lia.
Qed.

Lemma lexicographical_compare_app (lt : A → A → bool) a1 a2 b1 b2 :
  length a1 = length b1 →
  lexicographical_compare lt (a1 ++ a2) (b1 ++ b2)
  = if lexicographical_compare lt a1 b1 then true
    else if lexicographical_compare lt b1 a1 then false
    else lexicographical_compare lt a2 b2.
Proof.
  revert b1. induction a1 as [|x a1 IH]; intros [|y b1] Hlen; simpl in *; try done.
  destruct (lt x y) eqn:Hxy, (lt y x) eqn:Hyx; try done. apply IH. lia.
Qed.

(** Comparing the inner arrays one after the other is comparing the whole
    block element by element. *)
Lemma array_equal_inner_arrays (eq : A → A → bool) n inner a b :
  length a = n * inner → length b = n * inner →
  array_equal (array_equal eq) (inner_arrays n inner a) (inner_arrays n inner b)
  = array_equal eq a b.
Proof.
  revert a b. induction n as [|n IH]; intros a b Ha Hb; simpl.
  - by destruct a.
  - rewrite <- (take_drop inner a) at 3. rewrite <- (take_drop inner b) at 3.
    rewrite array_equal_app by (rewrite !length_take; lia).
    destruct (array_equal eq (take inner a) (take inner b)); [|done]. simpl.
    apply IH; rewrite length_drop; lia.
Qed.

Lemma lexicographical_compare_inner_arrays (lt : A → A → bool) n inner a b :
  length a = n * inner → length b = n * inner →
  lexicographical_compare (lexicographical_compare lt)
    (inner_arrays n inner a) (inner_arrays n inner b)
  = lexicographical_compare lt a b.
Proof.
  revert a b. induction n as [|n IH]; intros a b Ha Hb; simpl.
  - by destruct a, b.
  - rewrite <- (take_drop inner a) at 4. rewrite <- (take_drop inner b) at 4.
    rewrite lexicographical_compare_app by (rewrite !length_take; lia).
    destruct (lexicographical_compare lt (take inner a) (take inner b)); [done|].
    destruct (lexicographical_compare lt (take inner b) (take inner a)); [done|].
    apply IH; rewrite length_drop; lia.
Qed.

Lemma array_equal_lookup (eq : A → A → bool) a b :
  length a = length b →
  array_equal eq a b = true ↔
  ∀ i x y, a !! i = Some x → b !! i = Some y → eq x y = true.
Proof.
  revert b. induction a as [|x a IH]; intros [|y b] Hlen; simpl in *; try done.
  destruct (eq x y) eqn:Hxy.
  - rewrite IH by lia. split.
    + intros Hall [|i] x' y' Hx' Hy'; simpl in *; [congruence|by eapply Hall].
    + intros Hall i x' y' Hx' Hy'. by apply (Hall (S i)).
  - split; [done|]. intros Hall. rewrite <- Hxy. by apply (Hall 0).
Qed.

(** The order on blocks of one length, when the elements are strictly and
    totally ordered by [lt]. *)
Section Order.
Variable lt : A → A → bool.
Hypothesis lt_asym : ∀ x y, lt x y = true → lt y x = false.
Hypothesis lt_trans : ∀ x y z, lt x y = true → lt y z = true → lt x z = true.
Hypothesis lt_connected : ∀ x y, lt x y = false → lt y x = false → x = y.

Lemma lt_irrefl x : lt x x = false.
Proof using lt_asym.
  destruct (lt x x) eqn:Hx; [|done]. by rewrite (lt_asym x x Hx) in Hx.
Qed.

Lemma lexicographical_compare_irrefl a : lexicographical_compare lt a a = false.
Proof using lt_asym.
  induction a as [|x a IH]; simpl; [done|]. by rewrite lt_irrefl.
Qed.

Lemma lexicographical_compare_asym a b :
  lexicographical_compare lt a b = true → lexicographical_compare lt b a = false.
Proof using lt_asym.
  revert b. induction a as [|x a IH]; intros [|y b]; simpl; try done.
  destruct (lt x y) eqn:Hxy.
  - intros _. by rewrite (lt_asym x y Hxy).
  - destruct (lt y x); [done|]. apply IH.
Qed.

Lemma lexicographical_compare_trans a b c :
  length a = length b → length b = length c →
  lexicographical_compare lt a b = true →
  lexicographical_compare lt b c = true →
  lexicographical_compare lt a c = true.
Proof using lt_asym lt_trans lt_connected.
  revert b c. induction a as [|x a IH]; intros [|y b] [|z c] Hab Hbc; simpl in *; try done.
  destruct (lt x y) eqn:Hxy.
  - intros _. destruct (lt y z) eqn:Hyz.
    + intros _. by rewrite (lt_trans x y z).
    + destruct (lt z y) eqn:Hzy; [done|]. intros _.
      rewrite <- (lt_connected y z Hyz Hzy). by rewrite Hxy.
  - destruct (lt y x) eqn:Hyx; [done|]. intros Hlab.
    rewrite (lt_connected x y Hxy Hyx).
    destruct (lt y z); [done|]. destruct (lt z y); [done|].
    apply (IH b c); [lia|lia|done].
Qed.

Lemma lexicographical_compare_connected a b :
  length a = length b →
  lexicographical_compare lt a b = false →
  lexicographical_compare lt b a = false →
  a = b.
Proof using lt_connected.
  revert b. induction a as [|x a IH]; intros [|y b] Hlen; simpl in *; try done.
  destruct (lt x y) eqn:Hxy; [done|]. destruct (lt y x) eqn:Hyx; [done|].
  intros Hab Hba. rewrite (lt_connected x y Hxy Hyx). f_equal. apply IH; [lia|done..].
Qed.
End Order.

(** Two blocks of zeros with a single one: the block whose one comes
    first is the greater. *)
Lemma lexicographical_compare_single (lt : A → A → bool) (zero one : A) n i j :
  lt zero zero = false → lt zero one = true → lt one zero = false →
  i < j → j < n →
  lexicographical_compare lt (<[i := one]> (replicate n zero)) (<[j := one]> (replicate n zero))
  = false ∧
  lexicographical_compare lt (<[j := one]> (replicate n zero)) (<[i := one]> (replicate n zero))
  = true.
Proof.
  intros H00 H01 H10. revert i j. induction n as [|n IH]; intros i j Hij Hj; [lia|].
  destruct j as [|j]; [lia|]. destruct i as [|i]; simpl.
  - by rewrite H10, H01.
  - rewrite H00. apply IH; lia.
Qed.
End ArrayComparisons.

Section ComparisonFacts.
Context {Real : Type} `{RealOps Real} `{!RealOpsExt Real}.
Variable layout : Layout.
Context {NumRows NumCols : nat}.
Implicit Types (M : Matrix (Real:=Real) NumRows NumCols).

Lemma op_eq_flat M M' :
  wf M → wf M' →
  op_eq layout M M' = array_equal req (Mat_data M) (Mat_data M').
Proof.
  unfold wf, op_eq, storage_arrays, Mat_data. intros Hwf Hwf'.
  destruct layout; apply array_equal_inner_arrays; lia.
Qed.

Lemma op_lt_flat M M' :
  wf M → wf M' →
  op_lt layout M M' = lexicographical_compare rlt (Mat_data M) (Mat_data M').
Proof.
  unfold wf, op_lt, storage_arrays, Mat_data. intros Hwf Hwf'.
  destruct layout; apply lexicographical_compare_inner_arrays; lia.
Qed.

(** X14. [M == M'] holds exactly when [M(r, c) == M'(r, c)] at every valid
    [(r, c)]: although it compares the physical blocks, equality does not
    depend on the layout.  [M != M'] is its negation. *)
Theorem op_eq_elementwise M M' :
  wf M → wf M' →
  (op_eq layout M M' = true ↔
   ∀ r c, r < NumRows → c < NumCols →
     req (Mat_at layout M r c) (Mat_at layout M' r c) = true) ∧
  op_ne layout M M' = negb (op_eq layout M M').
Proof.
  intros Hwf Hwf'. split; [|done].
  rewrite op_eq_flat by done. unfold Mat_data.
  rewrite array_equal_lookup by (unfold wf in *; congruence). split.
  - intros Hall r c Hr Hc. rewrite !Mat_at_slot.
    pose proof (slot_lt layout r c Hr Hc) as Hlt.
    destruct (lookup_lt_is_Some_2 (mStorage (mTable M)) (slot layout NumRows NumCols r c))
      as [x Hx]; [by rewrite Hwf|].
    destruct (lookup_lt_is_Some_2 (mStorage (mTable M')) (slot layout NumRows NumCols r c))
      as [y Hy]; [by rewrite Hwf'|].
    rewrite Hx, Hy. simpl. by eapply Hall.
  - intros Hall i x y Hx Hy.
    assert (Hi : i < NumRows * NumCols) by (rewrite <- Hwf; by eapply lookup_lt_Some).
    destruct (slot_surj layout i Hi) as (r & c & Hr & Hc & <-).
    specialize (Hall r c Hr Hc). by rewrite !Mat_at_slot, Hx, Hy in Hall.
Qed.

(** X15. [M < M'] is the lexicographic comparison of the two physical blocks,
    element by element in storage order; [>], [<=] and [>=] are read off
    the same comparison. *)
Theorem op_lt_lexicographic M M' :
  wf M → wf M' →
  op_lt layout M M' = lexicographical_compare rlt (Mat_data M) (Mat_data M') ∧
  op_gt layout M M' = op_lt layout M' M ∧
  op_le layout M M' = negb (op_lt layout M' M) ∧
  op_ge layout M M' = negb (op_lt layout M M').
Proof. intros Hwf Hwf'. split; [by apply op_lt_flat|done]. Qed.

(** X16. When the elements are strictly and totally ordered by [<], so are the
    matrices: [<] is irreflexive, asymmetric and transitive, and two
    matrices neither of which is below the other are the same matrix.
    This is what sorted containers ask of a key. *)
Theorem op_lt_strict_total_order M M' M'' :
  (∀ x y : Real, rlt x y = true → rlt y x = false) →
  (∀ x y z : Real, rlt x y = true → rlt y z = true → rlt x z = true) →
  (∀ x y : Real, rlt x y = false → rlt y x = false → x = y) →
  wf M → wf M' → wf M'' →
  op_lt layout M M = false ∧
  (op_lt layout M M' = true → op_lt layout M' M = false) ∧
  (op_lt layout M M' = true → op_lt layout M' M'' = true → op_lt layout M M'' = true) ∧
  (op_lt layout M M' = false → op_lt layout M' M = false → M = M').
Proof.
  intros Hasym Htrans Hconn Hwf Hwf' Hwf''.
  rewrite !op_lt_flat by done. split; [|split; [|split]].
  - by apply lexicographical_compare_irrefl.
  - by apply lexicographical_compare_asym.
  - apply (lexicographical_compare_trans rlt Hasym Htrans Hconn);
      unfold Mat_data, wf in *; congruence.
  - intros Hab Hba. apply Matrix_eq.
    apply (lexicographical_compare_connected rlt Hconn); [|done..].
    unfold wf in *; congruence.
Qed.
End ComparisonFacts.

Lemma op_eq_elementwise_witness :
  op_eq ColMajor (M_2x3 ColMajor) (M_2x3 ColMajor) = true.
Proof.
  assert (Hwf : wf (M_2x3 ColMajor)) by reflexivity.
  apply (proj1 (op_eq_elementwise ColMajor (M_2x3 ColMajor) (M_2x3 ColMajor) Hwf Hwf)).
  intros r c _ _. apply Z.eqb_refl.
Defined.

Lemma op_lt_lexicographic_witness :
  op_lt ColMajor (M_2x3 ColMajor) (M_2x3 ColMajor)
  = lexicographical_compare rlt (Mat_data (M_2x3 ColMajor)) (Mat_data (M_2x3 ColMajor)).
Proof.
  assert (Hwf : wf (M_2x3 ColMajor)) by reflexivity.
  exact (proj1 (op_lt_lexicographic ColMajor (M_2x3 ColMajor) (M_2x3 ColMajor) Hwf Hwf)).
Defined.

Lemma Z_ltb_asym (x y : Z) : (x <? y)%Z = true → (y <? x)%Z = false.
Proof. intros Hxy. apply Z.ltb_lt in Hxy. apply Z.ltb_ge. lia. Defined.

Lemma Z_ltb_trans (x y z : Z) : (x <? y)%Z = true → (y <? z)%Z = true → (x <? z)%Z = true.
Proof. intros Hxy Hyz. apply Z.ltb_lt in Hxy, Hyz. apply Z.ltb_lt. lia. Defined.

Lemma Z_ltb_connected (x y : Z) : (x <? y)%Z = false → (y <? x)%Z = false → x = y.
Proof. intros Hxy Hyx. apply Z.ltb_ge in Hxy, Hyx. lia. Defined.

Lemma op_lt_strict_total_order_witness :
  op_lt ColMajor (M_2x3 ColMajor) (M_2x3 ColMajor) = false.
Proof.
  assert (Hwf : wf (M_2x3 ColMajor)) by reflexivity.
  exact (proj1 (op_lt_strict_total_order (Real:=Z) ColMajor
           (M_2x3 ColMajor) (M_2x3 ColMajor) (M_2x3 ColMajor)
           Z_ltb_asym Z_ltb_trans Z_ltb_connected Hwf Hwf Hwf)).
Defined.

Lemma Unit_data {Real : Type} `{RealOps Real} (layout : Layout) {NumRows NumCols : nat}
    (r c : nat) :
  r < NumRows → c < NumCols →
  Mat_data (Unit layout (Z.of_nat r) (Z.of_nat c) : Matrix NumRows NumCols)
  = <[slot layout NumRows NumCols r c := r1]> (replicate (NumRows * NumCols) r0).
Proof.
  intros Hr Hc. unfold Unit, MakeUnit, Mat_data.
  rewrite Matrix_ctor_Zero, (MakeZero_Zero layout) by apply wf_Zero.
  destruct (_ && _)%Z eqn:Hrange.
  - rewrite Mat_set_slot, !Nat2Z.id, Zero_data. done.
  - rewrite !andb_false_iff in Hrange. lia.
Qed.

(** X17. The order of two matrices depends on the layout.  For every shape with
    at least two rows and two columns, the unit matrices [E(0, 1)] and
    [E(1, 0)] compare one way in a row-major build and the other way in a
    column-major build. *)
Theorem op_lt_depends_on_layout {Real : Type} `{RealOps Real} `{!RealOpsExt Real}
    {NumRows NumCols : nat} :
  2 ≤ NumRows → 2 ≤ NumCols →
  rlt r0 r0 = false → rlt r0 r1 = true → rlt r1 r0 = false →
  op_lt RowMajor (Unit RowMajor 0 1 : Matrix NumRows NumCols) (Unit RowMajor 1 0) = false ∧
  op_lt RowMajor (Unit RowMajor 1 0 : Matrix NumRows NumCols) (Unit RowMajor 0 1) = true ∧
  op_lt ColMajor (Unit ColMajor 0 1 : Matrix NumRows NumCols) (Unit ColMajor 1 0) = true ∧
  op_lt ColMajor (Unit ColMajor 1 0 : Matrix NumRows NumCols) (Unit ColMajor 0 1) = false.
Proof.
  intros HR HC H00 H01 H10.
  assert (HwfU : ∀ layout (r c : Z), wf (Unit layout r c : Matrix NumRows NumCols)).
  { intros layout r c. unfold Unit. rewrite Matrix_ctor_Zero.
    apply (MakeUnit_good layout r c (Zero layout)), wf_Zero. }
  rewrite !op_lt_flat by done.
  rewrite (Unit_data RowMajor 0 1), (Unit_data RowMajor 1 0) by lia.
  rewrite (Unit_data ColMajor 0 1), (Unit_data ColMajor 1 0) by lia.
  unfold slot.
  destruct (lexicographical_compare_single rlt r0 r1 (NumRows * NumCols)
              (0 * NumCols + 1) (1 * NumCols + 0) H00 H01 H10) as [Hr1 Hr2]; [lia|nia|].
  destruct (lexicographical_compare_single rlt r0 r1 (NumRows * NumCols)
              (0 * NumRows + 1) (1 * NumRows + 0) H00 H01 H10) as [Hc1 Hc2]; [lia|nia|].
  done.
Qed.

Lemma op_lt_depends_on_layout_witness :
  op_lt RowMajor (Unit RowMajor 0 1 : Matrix (Real:=Z) 2 3) (Unit RowMajor 1 0) = false ∧
  op_lt ColMajor (Unit ColMajor 0 1 : Matrix (Real:=Z) 2 3) (Unit ColMajor 1 0) = true.
Proof.
  assert (H2 : 2 ≤ 2) by lia. assert (H3 : 2 ≤ 3) by lia.
  pose proof (op_lt_depends_on_layout (Real:=Z) (NumRows:=2) (NumCols:=3)
                H2 H3 eq_refl eq_refl eq_refl) as (Ha & _ & Hb & _).
  split; [exact Ha|exact Hb].
Defined.

(** ** Matrix-vector products *)

Section VectorProducts.
Context {Real : Type} `{RealOps Real}.
Variable layout : Layout.

Lemma Vec_set_accumulate {N : nat} (V : Vector (Real:=Real) N) k a x :
  Vec_set (Vec_set V k a) k (radd (Vec_at (Vec_set V k a) k) x) = Vec_set V k (radd a x).
Proof.
  unfold Vec_set, Vec_at. simpl. f_equal. set (l := mTuple V).
  destruct (decide (k < length l)) as [Hlt|Hge].
  - rewrite list_lookup_insert_eq by done. simpl. apply list_insert_insert_eq.
  - by rewrite !(list_insert_ge l) by lia.
Qed.

Lemma vec_accumulate_loop {N : nat} (V : Vector (Real:=Real) N) k (t : nat → Real) lo n a :
  for_range lo n (λ i V, Vec_set V k (radd (Vec_at V k) (t i))) (Vec_set V k a)
  = Vec_set V k (for_range lo n (λ i acc, radd acc (t i)) a).
Proof.
  revert lo a. induction n as [|n IH]; intros lo a; simpl; [done|].
  rewrite Vec_set_accumulate. apply IH.
Qed.

Lemma dot_comm n (a b : nat → Real) :
  (∀ x y : Real, rmul x y = rmul y x) → dot n a b = dot n b a.
Proof.
  intros Hcomm. unfold dot. apply for_range_ext. intros i acc _. by rewrite Hcomm.
Qed.

Context {NumRows NumCols : nat}.

Lemma op_mul_MV_data (M : Matrix (Real:=Real) NumRows NumCols) (V : Vector NumCols) :
  op_mul_MV layout M V
  = mkVector (map (λ r, dot NumCols (λ c, Mat_at layout M r c) (Vec_at V)) (seq 0 NumRows)).
Proof.
  unfold op_mul_MV. rewrite <- vec_fill. apply for_range_ext. intros r W _.
  apply (vec_accumulate_loop W r (λ c, rmul (Mat_at layout M r c) (Vec_at V c))).
Qed.

Lemma op_mul_VM_data (V : Vector NumRows) (M : Matrix (Real:=Real) NumRows NumCols) :
  op_mul_VM layout V M
  = mkVector (map (λ c, dot NumRows (Vec_at V) (λ r, Mat_at layout M r c)) (seq 0 NumCols)).
Proof.
  unfold op_mul_VM. rewrite <- vec_fill. apply for_range_ext. intros c W _.
  apply (vec_accumulate_loop W c (λ r, rmul (Vec_at V r) (Mat_at layout M r c))).
Qed.

(** X18. [M * V] and [V^T * M]: full-length vectors whose elements are the sums
    [((0 + M(r,0) V[0]) + M(r,1) V[1]) + ...] and
    [((0 + V[0] M(0,c)) + V[1] M(1,c)) + ...], accumulated in index order. *)
Theorem op_mul_MV_VM_elements (M : Matrix (Real:=Real) NumRows NumCols)
    (V : Vector NumCols) (W : Vector NumRows) :
  wfV (op_mul_MV layout M V) ∧ wfV (op_mul_VM layout W M) ∧
  (∀ r, r < NumRows →
     Vec_at (op_mul_MV layout M V) r
     = dot NumCols (λ c, Mat_at layout M r c) (Vec_at V)) ∧
  (∀ c, c < NumCols →
     Vec_at (op_mul_VM layout W M) c
     = dot NumRows (Vec_at W) (λ r, Mat_at layout M r c)).
Proof.
  rewrite op_mul_MV_data, op_mul_VM_data. split; [|split; [|split]].
  - unfold wfV. simpl. by rewrite length_map, length_seq.
  - unfold wfV. simpl. by rewrite length_map, length_seq.
  - intros r Hr.
    by apply (Vec_at_fill (λ r, dot NumCols (λ c, Mat_at layout M r c) (Vec_at V))).
  - intros c Hc.
    by apply (Vec_at_fill (λ c, dot NumRows (Vec_at W) (λ r, Mat_at layout M r c))).
Qed.
End VectorProducts.

(** X19. When the element multiplication is commutative, [V^T * M] is
    [Transpose(M) * V]. *)
Theorem op_mul_VM_Transpose {Real : Type} `{RealOps Real} (layout : Layout)
    {NumRows NumCols : nat} (V : Vector NumRows) (M : Matrix (Real:=Real) NumRows NumCols) :
  (∀ x y : Real, rmul x y = rmul y x) →
  op_mul_VM layout V M = op_mul_MV layout (Transpose layout M) V.
Proof.
  intros Hcomm. rewrite op_mul_VM_data, op_mul_MV_data. f_equal.
  apply map_seq_ext. intros c Hc. rewrite (dot_comm _ _ _ Hcomm).
  apply dot_ext; [|done]. intros r Hr. symmetry. apply Mat_at_Transpose; lia.
Qed.

(** X20. The product [A * B] column by column and row by row: column [c] of
    [A * B] is [A * (column c of B)] and row [r] of [A * B] is
    [(row r of A)^T * B], with the same sums in the same order, so the
    vectors are equal for any element type. *)
Theorem MultiplyAB_columns_rows {Real : Type} `{RealOps Real} (layout : Layout)
    {NumRows NumCols NumCommon : nat}
    (A : Matrix (Real:=Real) NumRows NumCommon) (B : Matrix (Real:=Real) NumCommon NumCols) :
  (∀ c, c < NumCols →
     GetCol layout c (MultiplyAB layout A B) = op_mul_MV layout A (GetCol layout c B)) ∧
  (∀ r, r < NumRows →
     GetRow layout r (MultiplyAB layout A B) = op_mul_VM layout (GetRow layout r A) B).
Proof.
  destruct (MultiplyAB_good layout A B) as [_ Hat]. split.
  - intros c Hc. rewrite GetCol_data, op_mul_MV_data. f_equal.
    apply map_seq_ext. intros r Hr. rewrite Hat by (done || lia).
    apply dot_ext; [done|]. intros i Hi. rewrite GetCol_data.
    symmetry. by apply (Vec_at_fill (λ i, Mat_at layout B i c)).
  - intros r Hr. rewrite GetRow_data, op_mul_VM_data. f_equal.
    apply map_seq_ext. intros c Hc. rewrite Hat by (done || lia).
    apply dot_ext; [|done]. intros i Hi. rewrite GetRow_data.
    symmetry. by apply (Vec_at_fill (λ i, Mat_at layout A r i)).
Qed.

Lemma op_mul_MV_VM_elements_witness :
  Vec_at (op_mul_MV ColMajor (M_2x3 ColMajor) V_3) 1
  = dot 3 (λ c, Mat_at ColMajor (M_2x3 ColMajor) 1 c) (Vec_at V_3).
Proof.
  assert (H1 : 1 < 2) by lia.
  exact (proj1 (proj2 (proj2 (op_mul_MV_VM_elements ColMajor (M_2x3 ColMajor) V_3 V_2))) 1 H1).
Defined.

Lemma op_mul_VM_Transpose_witness :
  op_mul_VM ColMajor V_2 (M_2x3 ColMajor)
  = op_mul_MV ColMajor (Transpose ColMajor (M_2x3 ColMajor)) V_2.
Proof.
  exact (op_mul_VM_Transpose (Real:=Z) ColMajor V_2 (M_2x3 ColMajor) (λ x y, Z.mul_comm x y)).
Defined.

Lemma MultiplyAB_columns_rows_witness :
  GetCol ColMajor 2 (MultiplyAB ColMajor (M_2x2 ColMajor) (M_2x3 ColMajor))
  = op_mul_MV ColMajor (M_2x2 ColMajor) (GetCol ColMajor 2 (M_2x3 ColMajor)).
Proof.
  assert (H2 : 2 < 3) by lia.
  exact (proj1 (MultiplyAB_columns_rows ColMajor (M_2x2 ColMajor) (M_2x3 ColMajor)) 2 H2).
Defined.

(** ** The product family *)

Section ProductFamily.
Context {Real : Type} `{RealOps Real} `{!RealOpsExt Real}.
Variable layout : Layout.

Lemma MultiplyATBT_loop {NumRows NumCols NumCommon : nat}
    (A : Matrix (Real:=Real) NumCommon NumRows) (B : Matrix (Real:=Real) NumCols NumCommon) :
  MultiplyATBT layout A B =
  for_range 0 NumRows (λ r M, for_range 0 NumCols (λ c M,
    Mat_set layout M r c
      (dot NumCommon (λ i, Mat_at layout A i r) (λ i, Mat_at layout B c i))) M)
    (Zero layout).
Proof.
  unfold MultiplyATBT. rewrite Matrix_ctor_Zero.
  apply for_range_ext. intros r M _. apply for_range_ext. intros c M' _.
  apply (accumulate_loop layout M' r c
           (λ i, rmul (Mat_at layout A i r) (Mat_at layout B c i))).
Qed.

(** A nested loop that assigns [v r c] to every [result(r, c)] of a fresh
    matrix. *)
Lemma fresh_fill_good {NumRows NumCols : nat} (v : nat → nat → Real) :
  good layout v
    (for_range 0 NumRows (λ r M, for_range 0 NumCols (λ c M,
       Mat_set layout M r c (v r c)) M) (Zero layout) : Matrix NumRows NumCols)
    (λ _ _, True).
Proof.
  eapply good_weaken.
  - apply good_rect_loop with (D := λ _ _, False); [|done|done|done].
    split; [apply wf_Zero|done].
  - simpl. intros r c Hr Hc _. right. done.
Qed.

(** X21. The four products are well-formed matrices whose element [(r, c)] is
    the sum accumulated from zero in the order of the common index:
    [A(r,i) B(i,c)], [A(r,i) B(c,i)], [A(i,r) B(i,c)] and [A(i,r) B(c,i)]
    for [AB], [ABT], [ATB] and [ATBT]. *)
Theorem Multiply_elements {NumRows NumCols NumCommon : nat}
    (A : Matrix (Real:=Real) NumRows NumCommon) (B : Matrix (Real:=Real) NumCommon NumCols)
    (A' : Matrix (Real:=Real) NumCommon NumRows) (B' : Matrix (Real:=Real) NumCols NumCommon) :
  wf (MultiplyAB layout A B) ∧ wf (MultiplyABT layout A B') ∧
  wf (MultiplyATB layout A' B) ∧ wf (MultiplyATBT layout A' B') ∧
  ∀ r c, r < NumRows → c < NumCols →
    Mat_at layout (MultiplyAB layout A B) r c
    = dot NumCommon (λ i, Mat_at layout A r i) (λ i, Mat_at layout B i c) ∧
    Mat_at layout (MultiplyABT layout A B') r c
    = dot NumCommon (λ i, Mat_at layout A r i) (λ i, Mat_at layout B' c i) ∧
    Mat_at layout (MultiplyATB layout A' B) r c
    = dot NumCommon (λ i, Mat_at layout A' i r) (λ i, Mat_at layout B i c) ∧
    Mat_at layout (MultiplyATBT layout A' B') r c
    = dot NumCommon (λ i, Mat_at layout A' i r) (λ i, Mat_at layout B' c i).
Proof.
  rewrite MultiplyAB_loop, MultiplyABT_loop, MultiplyATB_loop, MultiplyATBT_loop.
  split; [apply fresh_fill_good|]. split; [apply fresh_fill_good|].
  split; [apply fresh_fill_good|]. split; [apply fresh_fill_good|].
  intros r c Hr Hc. split; [|split; [|split]].
  - by apply (fresh_fill_good
      (λ r c, dot NumCommon (λ i, Mat_at layout A r i) (λ i, Mat_at layout B i c))).
  - by apply (fresh_fill_good
      (λ r c, dot NumCommon (λ i, Mat_at layout A r i) (λ i, Mat_at layout B' c i))).
  - by apply (fresh_fill_good
      (λ r c, dot NumCommon (λ i, Mat_at layout A' i r) (λ i, Mat_at layout B i c))).
  - by apply (fresh_fill_good
      (λ r c, dot NumCommon (λ i, Mat_at layout A' i r) (λ i, Mat_at layout B' c i))).
Qed.

(** X22. [MultiplyATBT(A, B)] has the same storage as
    [MultiplyAB(Transpose(A), Transpose(B))] for any element type, and when
    the element multiplication is commutative the transpose of a product is
    the product of the transposes in reverse order:
    [Transpose(A * B) == MultiplyATBT(B, A)]. *)
Theorem MultiplyATBT_transposes {NumRows NumCols NumCommon : nat}
    (A : Matrix (Real:=Real) NumCommon NumRows) (B : Matrix (Real:=Real) NumCols NumCommon)
    (X : Matrix (Real:=Real) NumRows NumCommon) (Y : Matrix (Real:=Real) NumCommon NumCols) :
  MultiplyATBT layout A B = MultiplyAB layout (Transpose layout A) (Transpose layout B) ∧
  ((∀ x y : Real, rmul x y = rmul y x) →
   Transpose layout (MultiplyAB layout X Y) = MultiplyATBT layout Y X).
Proof.
  split.
  - rewrite MultiplyATBT_loop, MultiplyAB_loop.
    apply for_range_ext. intros r M Hr. apply for_range_ext. intros c M' Hc.
    f_equal. apply dot_ext.
    + intros i Hi. symmetry. apply Mat_at_Transpose; lia.
    + intros i Hi. symmetry. apply Mat_at_Transpose; lia.
  - intros Hcomm. apply (Matrix_eq_at layout).
    + apply Transpose_good.
    + rewrite MultiplyATBT_loop. apply fresh_fill_good.
    + intros c r Hc Hr. rewrite Mat_at_Transpose by done.
      destruct (MultiplyAB_good layout X Y) as [_ ->]; [|done..].
      rewrite MultiplyATBT_loop.
      destruct (fresh_fill_good (NumRows:=NumCols) (NumCols:=NumRows)
                  (λ r c, dot NumCommon (λ i, Mat_at layout Y i r) (λ i, Mat_at layout X c i)))
        as [_ ->]; [|done..].
      by apply dot_comm.
Qed.
End ProductFamily.

Lemma MultiplyATBT_transposes_witness :
  Transpose ColMajor (MultiplyAB ColMajor (M_2x2 ColMajor) (M_2x3 ColMajor))
  = MultiplyATBT ColMajor (M_2x3 ColMajor) (M_2x2 ColMajor).
Proof.
  exact (proj2 (MultiplyATBT_transposes (Real:=Z) ColMajor
           (Transpose ColMajor (M_2x2 ColMajor)) (Transpose ColMajor (M_2x3 ColMajor))
           (M_2x2 ColMajor) (M_2x3 ColMajor)) (λ x y, Z.mul_comm x y)).
Defined.

Lemma Multiply_elements_witness :
  Mat_at ColMajor (MultiplyAB ColMajor (M_2x2 ColMajor) (M_2x3 ColMajor)) 1 2
  = dot 2 (λ i, Mat_at ColMajor (M_2x2 ColMajor) 1 i) (λ i, Mat_at ColMajor (M_2x3 ColMajor) i 2).
Proof.
  assert (H1 : 1 < 2) by lia. assert (H2 : 2 < 3) by lia.
  exact (proj1 (proj2 (proj2 (proj2 (proj2 (Multiply_elements ColMajor
           (M_2x2 ColMajor) (M_2x3 ColMajor)
           (M_2x2 ColMajor) (Transpose ColMajor (M_2x3 ColMajor)))))) 1 2 H1 H2)).
Defined.

(** ** Diagonal matrices and outer products *)

Section DiagonalFacts.
Context {Real : Type} `{RealOps Real}.
Variable layout : Layout.

Lemma accumulate_single_term_in (t : nat → Real) k lo n :
  (∀ x : Real, radd x r0 = x) → (∀ x : Real, radd r0 x = x) →
  lo ≤ k < lo + n → (∀ j, lo ≤ j < lo + n → j ≠ k → t j = r0) →
  for_range lo n (λ j acc, radd acc (t j)) r0 = t k.
Proof.
  intros Ha0r Ha0l Hk Ht.
  rewrite (for_range_ext lo n _
             (λ j acc, radd acc (if decide (lo ≤ j < lo + n) then t j else r0))).
  - rewrite (accumulate_single_term Ha0r Ha0l
               (λ j, if decide (lo ≤ j < lo + n) then t j else r0) k); [|done|].
    + by rewrite decide_True.
    + intros j Hne. destruct (decide (lo ≤ j < lo + n)); [by apply Ht|done].
  - intros j acc Hj. by rewrite decide_True.
Qed.

Lemma MakeDiagonal_good {N : nat} (D : Vector N) (M : Matrix (Real:=Real) N N) :
  wf M →
  good layout (λ r c, if decide (r = c) then Vec_at D r else r0)
    (MakeDiagonal layout D M) (λ _ _, True).
Proof.
  intros Hwf. unfold MakeDiagonal.
  change (for_range 0 (N * N) (λ i M, Mat_set_idx M i r0) M) with (MakeZero M).
  rewrite (MakeZero_Zero layout) by done.
  eapply good_weaken.
  - apply (for_range_ind
      (λ j M, good layout (λ r c, if decide (r = c) then Vec_at D r else r0) M
                (λ r c, r ≠ c ∨ r < j))).
    + apply good_Zero. intros r c _ _ [Hne|?]; [|lia]. by rewrite decide_False.
    + intros j M' Hj HM'. eapply good_weaken.
      * apply (good_set layout _ M' _ j j (Vec_at D j) HM'); [lia|lia|].
        by rewrite decide_True.
      * simpl. intros r c _ _ [?|Hlt]; [tauto|].
        destruct (decide (r = c)) as [<-|]; [|tauto].
        destruct (decide (r = j)); [tauto|]. left. right. lia.
  - simpl. intros r c Hr Hc _.
    destruct (decide (r = c)) as [<-|]; [right; lia|by left].
Qed.

(** X23. [MakeDiagonal(D, M)] overwrites [M] with the diagonal matrix of [D]:
    [D[i]] at [(i, i)] and zero elsewhere, whatever [M] held; with a vector
    of ones it is the identity. *)
Theorem MakeDiagonal_elements {N : nat} (D : Vector N) (M : Matrix (Real:=Real) N N) :
  wf M →
  wf (MakeDiagonal layout D M) ∧
  (∀ r c, r < N → c < N →
     Mat_at layout (MakeDiagonal layout D M) r c
     = if decide (r = c) then Vec_at D r else r0) ∧
  ((∀ i, i < N → Vec_at D i = r1) → MakeDiagonal layout D M = Identity layout).
Proof.
  intros Hwf. destruct (MakeDiagonal_good D M Hwf) as [HwfD HatD].
  split; [done|]. split.
  - intros r c Hr Hc. by apply HatD.
  - intros Hones.
    destruct (Identity_good layout (NumRows:=N) (NumCols:=N)) as [HwfI HatI].
    apply (Matrix_eq_at layout); [done..|].
    intros r c Hr Hc. rewrite HatD, HatI by done. unfold identity_entry.
    destruct (decide (r = c)); [by apply Hones|done].
Qed.

Context {NumRows NumCols : nat}.

Lemma MultiplyMD_good (M : Matrix (Real:=Real) NumRows NumCols) (D : Vector NumCols) :
  good layout (λ r c, rmul (Mat_at layout M r c) (Vec_at D c))
    (MultiplyMD layout M D) (λ _ _, True).
Proof. unfold MultiplyMD. rewrite Matrix_ctor_Zero. apply fresh_fill_good. Qed.

Lemma MultiplyDM_good (D : Vector NumRows) (M : Matrix (Real:=Real) NumRows NumCols) :
  good layout (λ r c, rmul (Vec_at D r) (Mat_at layout M r c))
    (MultiplyDM layout D M) (λ _ _, True).
Proof. unfold MultiplyDM. rewrite Matrix_ctor_Zero. apply fresh_fill_good. Qed.

Lemma OuterProduct_good (U : Vector (Real:=Real) NumRows) (V : Vector NumCols) :
  good layout (λ r c, rmul (Vec_at U r) (Vec_at V c))
    (OuterProduct layout U V) (λ _ _, True).
Proof. unfold OuterProduct. rewrite Matrix_ctor_Zero. apply fresh_fill_good. Qed.

(** X24. [MultiplyMD(M, D)] scales column [c] by [D[c]] on the right and
    [MultiplyDM(D, M)] scales row [r] by [D[r]] on the left;
    [OuterProduct(U, V)] holds [U[r] * V[c]]. *)
Theorem diagonal_products_elements (M : Matrix (Real:=Real) NumRows NumCols)
    (D : Vector NumCols) (D' : Vector NumRows) (U : Vector NumRows) (V : Vector NumCols) :
  wf (MultiplyMD layout M D) ∧ wf (MultiplyDM layout D' M) ∧ wf (OuterProduct layout U V) ∧
  ∀ r c, r < NumRows → c < NumCols →
    Mat_at layout (MultiplyMD layout M D) r c = rmul (Mat_at layout M r c) (Vec_at D c) ∧
    Mat_at layout (MultiplyDM layout D' M) r c = rmul (Vec_at D' r) (Mat_at layout M r c) ∧
    Mat_at layout (OuterProduct layout U V) r c = rmul (Vec_at U r) (Vec_at V c).
Proof.
  split; [apply MultiplyMD_good|]. split; [apply MultiplyDM_good|].
  split; [apply OuterProduct_good|].
  intros r c Hr Hc. split; [|split].
  - by apply MultiplyMD_good.
  - by apply MultiplyDM_good.
  - by apply OuterProduct_good.
Qed.

(** X25. Multiplying by the implicit diagonal matrix is multiplying by the
    materialised one, for an element type in which zero annihilates and is
    the unit of addition: [MultiplyMD(M, D) == M * diag(D)] and
    [MultiplyDM(D', M) == diag(D') * M]. *)
Theorem diagonal_products_materialised (M : Matrix (Real:=Real) NumRows NumCols)
    (D : Vector NumCols) (D' : Vector NumRows)
    (X : Matrix (Real:=Real) NumCols NumCols) (X' : Matrix (Real:=Real) NumRows NumRows) :
  (∀ x : Real, rmul x r0 = r0) → (∀ x : Real, rmul r0 x = r0) →
  (∀ x : Real, radd x r0 = x) → (∀ x : Real, radd r0 x = x) →
  wf X → wf X' →
  MultiplyMD layout M D = MultiplyAB layout M (MakeDiagonal layout D X) ∧
  MultiplyDM layout D' M = MultiplyAB layout (MakeDiagonal layout D' X') M.
Proof.
  intros Hm0r Hm0l Ha0r Ha0l HwfX HwfX'.
  destruct (MultiplyMD_good M D) as [HwfMD HatMD].
  destruct (MultiplyDM_good D' M) as [HwfDM HatDM].
  destruct (MakeDiagonal_good D X HwfX) as [_ HatX].
  destruct (MakeDiagonal_good D' X' HwfX') as [_ HatX'].
  split.
  - apply (Matrix_eq_at layout); [done|apply MultiplyAB_good|].
    intros r c Hr Hc. rewrite HatMD by done.
    destruct (MultiplyAB_good layout M (MakeDiagonal layout D X)) as [_ ->]; [|done..].
    unfold dot.
    rewrite (accumulate_single_term_in
               (λ i, rmul (Mat_at layout M r i) (Mat_at layout (MakeDiagonal layout D X) i c)) c
               0 NumCols Ha0r Ha0l); [|lia|].
    + rewrite HatX by done. by rewrite decide_True.
    + intros i Hi Hne. rewrite HatX by (done || lia).
      rewrite decide_False by done. apply Hm0r.
  - apply (Matrix_eq_at layout); [done|apply MultiplyAB_good|].
    intros r c Hr Hc. rewrite HatDM by done.
    destruct (MultiplyAB_good layout (MakeDiagonal layout D' X') M) as [_ ->]; [|done..].
    unfold dot.
    rewrite (accumulate_single_term_in
               (λ i, rmul (Mat_at layout (MakeDiagonal layout D' X') r i) (Mat_at layout M i c)) r
               0 NumRows Ha0r Ha0l); [|lia|].
    + rewrite HatX' by done. by rewrite decide_True.
    + intros i Hi Hne. rewrite HatX' by (done || lia).
      rewrite decide_False by done. apply Hm0l.
Qed.
End DiagonalFacts.

(** X26. The transpose of an outer product is the outer product of the vectors
    in the other order, when the element multiplication is commutative. *)
Theorem Transpose_OuterProduct {Real : Type} `{RealOps Real} (layout : Layout)
    {NumRows NumCols : nat} (U : Vector (Real:=Real) NumRows) (V : Vector NumCols) :
  (∀ x y : Real, rmul x y = rmul y x) →
  Transpose layout (OuterProduct layout U V) = OuterProduct layout V U.
Proof.
  intros Hcomm.
  destruct (OuterProduct_good layout U V) as [_ HUV].
  destruct (OuterProduct_good layout V U) as [HwfVU HVU].
  apply (Matrix_eq_at layout); [apply Transpose_good|done|].
  intros c r Hc Hr. rewrite Mat_at_Transpose by done.
  rewrite HUV, HVU by done. apply Hcomm.
Qed.

(** X27. Transposition sends the special matrices to the special matrices of
    the transposed shape: zero to zero, the identity to the identity, and
    the unit matrix [E(r, c)] to [E(c, r)]. *)
Theorem Transpose_special {Real : Type} `{RealOps Real} (layout : Layout)
    {NumRows NumCols : nat} (r c : Z) :
  Transpose layout (Zero layout : Matrix (Real:=Real) NumRows NumCols) = Zero layout ∧
  Transpose layout (Identity layout : Matrix (Real:=Real) NumRows NumCols) = Identity layout ∧
  Transpose layout (Unit layout r c : Matrix (Real:=Real) NumRows NumCols) = Unit layout c r.
Proof.
  split; [|split].
  - apply (Matrix_eq_at layout); [apply Transpose_good|apply wf_Zero|].
    intros c' r' Hc' Hr'. by rewrite Mat_at_Transpose, !Mat_at_Zero.
  - destruct (Identity_good layout (NumRows:=NumRows) (NumCols:=NumCols)) as [_ HI].
    destruct (Identity_good layout (NumRows:=NumCols) (NumCols:=NumRows)) as [HwfI' HI'].
    apply (Matrix_eq_at layout); [apply Transpose_good|done|].
    intros c' r' Hc' Hr'. rewrite Mat_at_Transpose, HI, HI' by done.
    unfold identity_entry. destruct (decide (r' = c')), (decide (c' = r')); congruence.
  - assert (HU : ∀ (R C : nat) (a b : Z),
      good layout (unit_entry a b) (Unit layout a b : Matrix (Real:=Real) R C) (λ _ _, True)).
    { intros R C a b. unfold Unit. rewrite Matrix_ctor_Zero. apply MakeUnit_good, wf_Zero. }
    destruct (HU NumRows NumCols r c) as [_ Hrc].
    destruct (HU NumCols NumRows c r) as [Hwfcr Hcr].
    apply (Matrix_eq_at layout); [apply Transpose_good|done|].
    intros c' r' Hc' Hr'. rewrite Mat_at_Transpose, Hrc, Hcr by done.
    unfold unit_entry.
    destruct (decide (r = Z.of_nat r' ∧ c = Z.of_nat c')),
             (decide (c = Z.of_nat c' ∧ r = Z.of_nat r')); tauto.
Qed.

Lemma MakeDiagonal_elements_witness :
  rows_of ColMajor (MakeDiagonal ColMajor V_2 (M_2x2 ColMajor)) = [[7; 0]; [0; 8]]%Z ∧
  wf (MakeDiagonal ColMajor V_2 (M_2x2 ColMajor)).
Proof.
  assert (Hwf : wf (M_2x2 ColMajor)) by reflexivity.
  split; [reflexivity|].
  exact (proj1 (MakeDiagonal_elements ColMajor V_2 (M_2x2 ColMajor) Hwf)).
Defined.

Lemma diagonal_products_elements_witness :
  Mat_at ColMajor (MultiplyMD ColMajor (M_2x3 ColMajor) V_3) 1 2
  = rmul (Mat_at ColMajor (M_2x3 ColMajor) 1 2) (Vec_at V_3 2).
Proof.
  assert (H1 : 1 < 2) by lia. assert (H2 : 2 < 3) by lia.
  exact (proj1 (proj2 (proj2 (proj2 (diagonal_products_elements ColMajor
           (M_2x3 ColMajor) V_3 V_2 V_2 V_3))) 1 2 H1 H2)).
Defined.

Lemma diagonal_products_materialised_witness :
  MultiplyMD ColMajor (M_2x3 ColMajor) V_3
  = MultiplyAB ColMajor (M_2x3 ColMajor) (MakeDiagonal ColMajor V_3 (Zero ColMajor)).
Proof.
  assert (Hwf3 : wf (Zero ColMajor : Matrix (Real:=Z) 3 3)) by reflexivity.
  assert (Hwf2 : wf (Zero ColMajor : Matrix (Real:=Z) 2 2)) by reflexivity.
  exact (proj1 (diagonal_products_materialised (Real:=Z) ColMajor (M_2x3 ColMajor) V_3 V_2
           (Zero ColMajor) (Zero ColMajor)
           (λ x, Z.mul_0_r x) (λ x, Z.mul_0_l x) (λ x, Z.add_0_r x) (λ x, Z.add_0_l x)
           Hwf3 Hwf2)).
Defined.

Lemma Transpose_OuterProduct_witness :
  Transpose ColMajor (OuterProduct ColMajor V_2 V_3) = OuterProduct ColMajor V_3 V_2.
Proof.
  exact (Transpose_OuterProduct (Real:=Z) ColMajor V_2 V_3 (λ x y, Z.mul_comm x y)).
Defined.

(** ** Norms *)

Section NormFacts.
Context {Real : Type} `{RealOps Real}.
Variable layout : Layout.
Context {NumRows NumCols : nat}.
Implicit Types (M : Matrix (Real:=Real) NumRows NumCols).

(** X28. What [LInfinityNorm] does compute, for an element type in which [>]
    is irreflexive and a value that is not above [m] is not above anything
    greater than [m]: the result is the first element itself or the absolute
    value of a later one, the first element and the absolute values of the
    later ones are not above it, and when the first element is its own
    absolute value the result is the largest absolute value of the matrix,
    at every coordinate of either layout. *)
Theorem LInfinityNorm_maximum M :
  (∀ x : Real, rgt x x = false) →
  (∀ a m m' : Real, rgt a m = false → rgt m' m = true → rgt a m' = false) →
  0 < NumRows * NumCols →
  rgt (Mat_idx M 0) (LInfinityNorm M) = false ∧
  (∀ i, 0 < i < NumRows * NumCols → rgt (rabs (Mat_idx M i)) (LInfinityNorm M) = false) ∧
  (LInfinityNorm M = Mat_idx M 0 ∨
   ∃ i, 0 < i < NumRows * NumCols ∧ LInfinityNorm M = rabs (Mat_idx M i)) ∧
  (rabs (Mat_idx M 0) = Mat_idx M 0 →
   (∀ r c, r < NumRows → c < NumCols →
      rgt (rabs (Mat_at layout M r c)) (LInfinityNorm M) = false) ∧
   ∃ i, i < NumRows * NumCols ∧ LInfinityNorm M = rabs (Mat_idx M i)).
Proof.
  intros Hirr Htrans Hn.
  assert (Hinv :
    rgt (Mat_idx M 0) (LInfinityNorm M) = false ∧
    (∀ i, 1 ≤ i < NumRows * NumCols → rgt (rabs (Mat_idx M i)) (LInfinityNorm M) = false) ∧
    (LInfinityNorm M = Mat_idx M 0 ∨
     ∃ i, 1 ≤ i < NumRows * NumCols ∧ LInfinityNorm M = rabs (Mat_idx M i))).
  { unfold LInfinityNorm.
    apply (for_upto_ind (λ j m,
      rgt (Mat_idx M 0) m = false ∧
      (∀ i, 1 ≤ i < j → rgt (rabs (Mat_idx M i)) m = false) ∧
      (m = Mat_idx M 0 ∨ ∃ i, 1 ≤ i < j ∧ m = rabs (Mat_idx M i)))); [lia| |].
    - split; [apply Hirr|]. split; [intros i Hi; lia|by left].
    - intros j m Hj (H0 & Hle & Hatt). simpl.
      destruct (rgt (rabs (Mat_idx M j)) m) eqn:Hgt.
      + split; [by apply (Htrans _ m)|]. split.
        * intros i Hi. destruct (decide (i = j)) as [->|]; [apply Hirr|].
          apply (Htrans _ m); [|done]. apply Hle. lia.
        * right. exists j. split; [lia|done].
      + split; [done|]. split.
        * intros i Hi. destruct (decide (i = j)) as [->|]; [done|]. apply Hle. lia.
        * destruct Hatt as [->|(i & Hi & ->)]; [by left|]. right. exists i. split; [lia|done]. }
  destruct Hinv as (H0 & Hle & Hatt).
  split; [done|]. split; [intros i Hi; apply Hle; lia|]. split.
  { destruct Hatt as [?|(i & Hi & ?)]; [by left|]. right. exists i. split; [lia|done]. }
  intros Habs. split.
  - intros r c Hr Hc. rewrite Mat_at_slot, <- Mat_idx_data.
    pose proof (slot_lt layout r c Hr Hc) as Hlt.
    destruct (decide (slot layout NumRows NumCols r c = 0)) as [->|Hne].
    + by rewrite Habs.
    + apply Hle. lia.
  - destruct Hatt as [Hm|(i & Hi & Hm)].
    + exists 0. split; [done|]. by rewrite Habs.
    + exists i. split; [lia|done].
Qed.
End NormFacts.

Lemma Z_gtb_irrefl (x : Z) : (x >? x)%Z = false.
Proof. rewrite Z.gtb_ltb. apply Z.ltb_irrefl. Defined.

Lemma Z_gtb_step (a m m' : Z) : (a >? m)%Z = false → (m' >? m)%Z = true → (a >? m')%Z = false.
Proof.
  rewrite !Z.gtb_ltb. intros Ha Hm. apply Z.ltb_ge in Ha. apply Z.ltb_lt in Hm.
  apply Z.ltb_ge. lia.
Defined.

Lemma LInfinityNorm_maximum_witness :
  rgt (rabs (Mat_at ColMajor (M_2x3 ColMajor) 1 2)) (LInfinityNorm (M_2x3 ColMajor)) = false.
Proof.
  assert (Hn : 0 < 2 * 3) by lia. assert (H1 : 1 < 2) by lia. assert (H2 : 2 < 3) by lia.
  assert (Habs : rabs (Mat_idx (M_2x3 ColMajor) 0) = Mat_idx (M_2x3 ColMajor) 0) by reflexivity.
  exact (proj1 (proj2 (proj2 (proj2 (LInfinityNorm_maximum (Real:=Z) ColMajor
           (M_2x3 ColMajor) Z_gtb_irrefl Z_gtb_step Hn))) Habs) 1 2 H1 H2).
Defined.

(** X29. [L1Norm] is a norm in the usual sense for an element type in
    which absolute values are not below zero, a sum of two values not below
    zero is not below zero and is zero only when both are, and only zero has
    absolute value zero: on a non-empty matrix it is not below zero, and it
    is zero exactly for the zero matrix.  ([0 > x] false reads: [x] is not
    below zero.) *)
Theorem L1Norm_definite {Real : Type} `{RealOps Real} (layout : Layout)
    {NumRows NumCols : nat} (M : Matrix (Real:=Real) NumRows NumCols) :
  (∀ x : Real, rgt r0 (rabs x) = false) →
  (∀ a b : Real, rgt r0 a = false → rgt r0 b = false → rgt r0 (radd a b) = false) →
  (∀ a b : Real, rgt r0 a = false → rgt r0 b = false → radd a b = r0 → a = r0 ∧ b = r0) →
  (∀ x : Real, rabs x = r0 → x = r0) →
  rabs r0 = r0 → radd r0 r0 = r0 →
  wf M → 0 < NumRows * NumCols →
  rgt r0 (L1Norm M) = false ∧ (L1Norm M = r0 ↔ M = Zero layout).
Proof.
  intros Habs_pos Hadd_pos Hadd_zero Habs_zero Habs0 Hadd0 Hwf Hn.
  assert (Hinv : rgt r0 (L1Norm M) = false ∧
            (L1Norm M = r0 ↔ ∀ i, i < NumRows * NumCols → Mat_idx M i = r0)).
  { unfold L1Norm.
    apply (for_upto_ind (λ j (s : Real),
      rgt r0 s = false ∧ (s = r0 ↔ ∀ i, i < j → Mat_idx M i = r0))); [lia| |].
    - split; [apply Habs_pos|]. split.
      + intros Hz i Hi. assert (i = 0) as -> by lia. by apply Habs_zero.
      + intros Hall. rewrite (Hall 0) by lia. done.
    - intros j s Hj [Hs Hiff]. cbv beta. split; [by apply Hadd_pos|]. split.
      + intros Hz i Hi.
        destruct (Hadd_zero s (rabs (Mat_idx M j)) Hs (Habs_pos _) Hz) as [Hs0 Hj0].
        destruct (decide (i = j)) as [->|]; [by apply Habs_zero|].
        apply Hiff; [done|lia].
      + intros Hall. rewrite (Hall j) by lia. rewrite Habs0.
        assert (s = r0) as ->; [|done].
        apply Hiff. intros i Hi. apply Hall. lia. }
  destruct Hinv as [Hpos Hiff]. split; [done|]. rewrite Hiff. split.
  - intros Hall. apply Matrix_eq. rewrite Zero_data. simpl.
    apply list_eq_same_length with (NumRows * NumCols);
      [by rewrite length_replicate|done|].
    intros i x y Hi Hx Hy. rewrite lookup_replicate_2 in Hy by done.
    specialize (Hall i Hi). rewrite Mat_idx_data, Hx in Hall. simpl in *. congruence.
  - intros -> i Hi. rewrite Mat_idx_data, Zero_data. simpl.
    by rewrite lookup_replicate_2.
Qed.

Lemma Z_abs_not_below_zero (x : Z) : (0 >? Z.abs x)%Z = false.
Proof. rewrite Z.gtb_ltb. apply Z.ltb_ge. lia. Defined.

Lemma Z_add_not_below_zero (a b : Z) :
  (0 >? a)%Z = false → (0 >? b)%Z = false → (0 >? a + b)%Z = false.
Proof.
  rewrite !Z.gtb_ltb. intros Ha Hb. apply Z.ltb_ge in Ha, Hb. apply Z.ltb_ge. lia.
Defined.

Lemma Z_add_zero_both (a b : Z) :
  (0 >? a)%Z = false → (0 >? b)%Z = false → (a + b)%Z = 0%Z → a = 0%Z ∧ b = 0%Z.
Proof. rewrite !Z.gtb_ltb. intros Ha Hb. apply Z.ltb_ge in Ha, Hb. lia. Defined.

Lemma Z_abs_zero (x : Z) : Z.abs x = 0%Z → x = 0%Z.
Proof. lia. Defined.

Lemma L1Norm_definite_witness : rgt r0 (L1Norm (M_1x2_neg ColMajor)) = false.
Proof.
  assert (Hwf : wf (M_1x2_neg ColMajor)) by reflexivity.
  assert (Hn : 0 < 1 * 2) by lia.
  exact (proj1 (L1Norm_definite (Real:=Z) ColMajor (M_1x2_neg ColMajor)
           Z_abs_not_below_zero Z_add_not_below_zero Z_add_zero_both Z_abs_zero
           eq_refl eq_refl Hwf Hn)).
Defined.

(** ** The solver buffer and the transpose *)

(** X30. The physical block of a matrix in a column-major build is the physical
    block of its transpose in a row-major build.  So in a column-major build
    [Determinant] hands the collaborator exactly what a row-major build
    hands it for the transposed matrix. *)
Theorem col_major_block_is_transpose {Real : Type} `{RealOps Real}
    (GaussianElimination : nat → list Real → option (list Real) → GEResult Real)
    {N : nat} (Mc Mr : Matrix (Real:=Real) N N) :
  wf Mc → wf Mr →
  (∀ r c, r < N → c < N → Mat_at ColMajor Mc r c = Mat_at RowMajor Mr r c) →
  Mat_data Mc = Mat_data (Transpose RowMajor Mr) ∧
  Determinant GaussianElimination Mc
  = Determinant GaussianElimination (Transpose RowMajor Mr).
Proof.
  intros Hwfc Hwfr Hagree.
  assert (Hdata : Mat_data Mc = Mat_data (Transpose RowMajor Mr)).
  { destruct (Transpose_good RowMajor Mr) as [HwfT HatT]. unfold Mat_data.
    apply list_eq_same_length with (N * N); [done..|].
    intros i x y Hi Hx Hy.
    destruct (slot_surj ColMajor (NumRows:=N) (NumCols:=N) i Hi) as (r & c & Hr & Hc & Hs).
    specialize (Hagree r c Hr Hc). rewrite Mat_at_slot, Hs, Hx in Hagree.
    specialize (HatT c r Hc Hr I). rewrite Mat_at_slot in HatT.
    unfold slot in Hs, HatT. rewrite Hs, Hy in HatT. simpl in *. congruence. }
  split; [done|]. unfold Determinant. by rewrite Hdata.
Qed.

Lemma col_major_block_is_transpose_witness :
  Mat_data (M_2x2 ColMajor) = Mat_data (Transpose RowMajor (M_2x2 RowMajor)).
Proof.
  assert (Hc : wf (M_2x2 ColMajor)) by reflexivity.
  assert (Hr : wf (M_2x2 RowMajor)) by reflexivity.
  refine (proj1 (col_major_block_is_transpose GE_2x2 (M_2x2 ColMajor) (M_2x2 RowMajor) Hc Hr _)).
  intros r c Hr' Hc'.
  destruct r as [|[|r]]; [| |lia]; (destruct c as [|[|c]]; [reflexivity|reflexivity|lia]).
Defined.
